(** * Who-Cited-Me: the citation aggregation pipeline

    A shallow embedding of [Who-Cited-Me.py] and the properties its
    design document states about it: identifier normalisation, the
    retrying fetcher, the OpenAlex pagination loop, the Depositor-Report
    reader, the merge/dedup engine, the enrichment stage and the
    per-identifier loop of [main].

    Conventions.
    - A Python [str] is a [string]; every character is read as a code
      point.  The character classes Python consults ([str.isspace],
      [str.lower], [str.upper], the regex class [\d], the line
      boundaries of [str.splitlines]) are written out for the ASCII
      range; characters from 128 on are kept as they are and belong to
      none of the classes.  [unquote] turns an escape [%XY] into the
      character with code [XY]; Python additionally reads runs of
      escapes from [%80] on as UTF-8.
    - A citation record is a Python [dict] that [merge_citations] and
      [enrich_citation_metadata] update in place.  Records live in a
      [heap] and lists hold references, so a record reached through two
      paths is one object.
    - The network is an oracle: every function that performs a request
      takes the outcomes of its requests as an argument. *)

From Stdlib Require Import Bool Arith ZArith List Ascii String DecimalString Lia.
Import ListNotations.

Local Open Scope list_scope.
Local Open Scope string_scope.
Local Open Scope bool_scope.
Local Open Scope nat_scope.

(** ** Python string primitives *)

Module PyStr.

(** [str.isspace] on one character (ASCII range): TAB, LF, VT, FF, CR,
    the separators 0x1C..0x1F and the space. *)
Definition is_space (c : ascii) : bool :=
  let n := nat_of_ascii c in
  ((9 <=? n) && (n <=? 13)) || ((28 <=? n) && (n <=? 32)).

(** The regex class [\d]. *)
Definition is_digit (c : ascii) : bool :=
  let n := nat_of_ascii c in (48 <=? n) && (n <=? 57).

Definition is_upper (c : ascii) : bool :=
  let n := nat_of_ascii c in (65 <=? n) && (n <=? 90).

Definition is_lower (c : ascii) : bool :=
  let n := nat_of_ascii c in (97 <=? n) && (n <=? 122).

Definition lower_char (c : ascii) : ascii :=
  if is_upper c then ascii_of_nat (nat_of_ascii c + 32) else c.

Definition upper_char (c : ascii) : ascii :=
  if is_lower c then ascii_of_nat (nat_of_ascii c - 32) else c.

Fixpoint smap (f : ascii -> ascii) (s : string) : string :=
  match s with
  | EmptyString => EmptyString
  | String c t => String (f c) (smap f t)
  end.

(** [s.lower()] and [s.upper()]. *)
Definition lower (s : string) : string := smap lower_char s.
Definition upper (s : string) : string := smap upper_char s.

(** [s.startswith(p)]. *)
Fixpoint startswith (s p : string) {struct p} : bool :=
  match p with
  | EmptyString => true
  | String a p' =>
      match s with
      | EmptyString => false
      | String b s' => Ascii.eqb a b && startswith s' p'
      end
  end.

(** The slice [s[n:]]. *)
Fixpoint drop (n : nat) (s : string) : string :=
  match n with
  | O => s
  | S n' => match s with
            | EmptyString => EmptyString
            | String _ t => drop n' t
            end
  end.

(** [s.lstrip()], [s.rstrip()] and [s.strip()] with no argument. *)
Fixpoint lstrip (s : string) : string :=
  match s with
  | EmptyString => EmptyString
  | String c t => if is_space c then lstrip t else s
  end.

Fixpoint rstrip (s : string) : string :=
  match s with
  | EmptyString => EmptyString
  | String c t =>
      match rstrip t with
      | EmptyString => if is_space c then EmptyString else String c EmptyString
      | t' => String c t'
      end
  end.

Definition strip (s : string) : string := lstrip (rstrip s).

(** Python truthiness of a [str]: the empty string is false. *)
Definition nonempty (s : string) : bool :=
  match s with EmptyString => false | String _ _ => true end.

(** One hexadecimal digit, in either case, as [urllib.parse] accepts it. *)
Definition hex_val (c : ascii) : option nat :=
  let n := nat_of_ascii c in
  if is_digit c then Some (n - 48)
  else if (65 <=? n) && (n <=? 70) then Some (n - 55)
  else if (97 <=? n) && (n <=? 102) then Some (n - 87)
  else None.

(** [urllib.parse.unquote]: every [%] followed by two hexadecimal digits
    is replaced, in one left-to-right pass, by the character the digits
    denote; a [%] that is not followed by two hexadecimal digits stays. *)
Fixpoint unquote (s : string) : string :=
  match s with
  | EmptyString => EmptyString
  | String c t =>
      if Ascii.eqb c "%" then
        match t with
        | String a (String b r) =>
            match hex_val a, hex_val b with
            | Some h, Some l => String (ascii_of_nat (16 * h + l)) (unquote r)
            | _, _ => String c (unquote t)
            end
        | _ => String c (unquote t)
        end
      else String c (unquote t)
  end.

(** Whether a string has a percent sign, and whether it is empty or
    starts with white space. *)
Fixpoint has_percent (s : string) : bool :=
  match s with
  | EmptyString => false
  | String c t => Ascii.eqb c "%" || has_percent t
  end.

Definition starts_with_space (s : string) : bool :=
  match s with
  | EmptyString => true
  | String c _ => is_space c
  end.

(** The line feed, as a string. *)
Definition nl : string := String "010" EmptyString.

End PyStr.

(** ** Identifier normaliser ([normalize_doi], lines 47-84) *)

Module Normalizer.
Import PyStr.

Definition prefixes : list string :=
  [ "https://doi.org/";
    "http://doi.org/";
    "https://dx.doi.org/";
    "http://dx.doi.org/";
    "doi:" ].

(** The loop over [prefixes]: the first prefix that [doi_lower] starts
    with is cut off [doi], and the loop ends there. *)
Fixpoint remove_prefix (ps : list string) (doi_lower doi : string) : string :=
  match ps with
  | [] => doi
  | prefix :: ps' =>
      if startswith doi_lower prefix then drop (String.length prefix) doi
      else remove_prefix ps' doi_lower doi
  end.

(** Length of the leading run of digits. *)
Fixpoint digit_run (s : string) : nat :=
  match s with
  | String c t => if is_digit c then S (digit_run t) else O
  | EmptyString => O
  end.

(** [.+$] against the rest of the subject: one character or more, none
    of them a line feed, up to the end of the string or up to a single
    line feed that ends it. *)
Fixpoint dot_plus_end (s : string) : bool :=
  match s with
  | EmptyString => false
  | String c t =>
      if Ascii.eqb c "010" then false
      else match t with
           | EmptyString => true
           | String d EmptyString => if Ascii.eqb d "010" then true else dot_plus_end t
           | _ => dot_plus_end t
           end
  end.

(** [re.match(r'^10\.\d{4,}/.+$', s, re.IGNORECASE)] as a test.  The
    pattern has no cased character, so the flag changes nothing; the
    character after the digits has to be [/], which is no digit, so
    [\d{4,}] takes the whole run. *)
Definition doi_pattern (s : string) : bool :=
  match s with
  | String a (String b (String c t)) =>
      let n := digit_run t in
      Ascii.eqb a "1" && Ascii.eqb b "0" && Ascii.eqb c "." &&
      (4 <=? n) &&
      match drop n t with
      | String d u => Ascii.eqb d "/" && dot_plus_end u
      | EmptyString => false
      end
  | _ => false
  end.

(** [normalize_doi]; [None] is Python's [None]. *)
Definition normalize_doi (doi : string) : option string :=
  if negb (nonempty doi) then None
  else
    let doi := strip (unquote doi) in
    let doi_lower := lower doi in
    let doi := remove_prefix prefixes doi_lower doi in
    let doi := strip doi in
    if doi_pattern doi then Some (lower doi) else None.

End Normalizer.

(** ** Resilient fetcher ([make_request], lines 149-181;
       [make_text_request], lines 189-220) *)

Module Fetcher.

(** The exceptions an attempt can end with, by the handler that takes
    them.  [JSONDecodeError] is what [response.json()] raises on a body
    that is no JSON: a [RequestException] in current versions of
    requests and a [ValueError] in older ones.  [KeyboardInterrupt] is no
    [Exception], and no handler of the fetcher takes it. *)
Inductive exn :=
| Timeout
| RequestException
| JSONDecodeError
| OtherException
| KeyboardInterrupt.

(** What one attempt meets: [requests.get] returns a response, whose
    body decodes to [Some b] or fails to decode ([None]), or it raises. *)
Inductive outcome (Body : Type) :=
| Responds (status_code : Z) (decoded : option Body)
| Fails (e : exn).
Arguments Responds {Body} status_code decoded.
Arguments Fails {Body} e.

(** What the fetcher does, in order. *)
Inductive event :=
| Request (attempt : nat)
| Sleep (seconds : nat).

(** How one pass through the loop body ends. *)
Inductive step (Body : Type) :=
| Return (v : option Body)
| Next (seconds : nat)
| Raise (e : exn).
Arguments Return {Body} v.
Arguments Next {Body} seconds.
Arguments Raise {Body} e.

Inductive result (Body : Type) :=
| Returns (v : option Body)
| Propagates (e : exn).
Arguments Returns {Body} v.
Arguments Propagates {Body} e.

Definition RETRY_COUNT : nat := 3.

Section Fetch.
Context {Body : Type}.

(** The [try] block. *)
Definition try_block (attempt : nat) (o : outcome Body) : step Body :=
  match o with
  | Fails e => Raise e
  | Responds status_code decoded =>
      if (status_code =? 200)%Z then
        match decoded with
        | Some b => Return (Some b)
        | None => Raise JSONDecodeError
        end
      else if (status_code =? 404)%Z then Return None
      else if (status_code =? 429)%Z then Next ((attempt + 1) * 5)
      else Next 1
  end.

(** The [except] clauses. *)
Definition handlers (s : step Body) : step Body :=
  match s with
  | Raise Timeout => Next 2
  | Raise RequestException => Next 1
  | Raise JSONDecodeError => Next 1
  | Raise OtherException => Next 1
  | Raise KeyboardInterrupt => Raise KeyboardInterrupt
  | _ => s
  end.

(** [for attempt in range(retry)], from [attempt] on with [n] passes
    left; [env k] is what the attempt of index [k] meets. *)
Fixpoint attempts (env : nat -> outcome Body) (n attempt : nat)
  : result Body * list event :=
  match n with
  | O => (Returns None, [])
  | S n' =>
      match handlers (try_block attempt (env attempt)) with
      | Return v => (Returns v, [Request attempt])
      | Raise e => (Propagates e, [Request attempt])
      | Next seconds =>
          let (r, log) := attempts env n' (S attempt) in
          (r, Request attempt :: Sleep seconds :: log)
      end
  end.

Definition make_request (retry : nat) (env : nat -> outcome Body)
  : result Body * list event :=
  attempts env retry 0.

End Fetch.

(** [make_text_request] is the same loop; it returns [response.text],
    which every response has. *)
Definition make_text_request (retry : nat) (env : nat -> outcome string)
  : result string * list event :=
  attempts env retry 0.

(** The outcomes the loop returns on: a 200 whose body decodes, and a
    404. *)
Definition settles {Body : Type} (o : outcome Body) : bool :=
  match o with
  | Responds status_code (Some _) => (status_code =? 200)%Z || (status_code =? 404)%Z
  | Responds status_code None => (status_code =? 404)%Z
  | Fails _ => false
  end.

(** The attempts made, and the pauses, read off the log. *)
Definition requested (k : nat) (log : list event) : Prop := In (Request k) log.

Fixpoint requests (log : list event) : nat :=
  match log with
  | [] => 0
  | Request _ :: l => S (requests l)
  | Sleep _ :: l => requests l
  end.

Fixpoint slept (log : list event) : nat :=
  match log with
  | [] => 0
  | Request _ :: l => slept l
  | Sleep s :: l => s + slept l
  end.

End Fetcher.

(** ** Depositor-Report reader
       ([read_dois_from_crossref_depositor_report], lines 221-239) *)

Module DepositorReport.
Import PyStr Normalizer.

(** The line boundaries of [str.splitlines] other than CR: LF, VT, FF
    and the separators 0x1C..0x1E. *)
Definition is_linebreak (c : ascii) : bool :=
  let n := nat_of_ascii c in
  ((10 <=? n) && (n <=? 12)) || ((28 <=? n) && (n <=? 30)).

(** [text.splitlines()], with the line read so far in [cur]; CR LF is
    one boundary, and a boundary at the very end opens no line. *)
Fixpoint splitlines_from (cur : string) (s : string) : list string :=
  match s with
  | EmptyString => if nonempty cur then [cur] else []
  | String c t =>
      if Ascii.eqb c "013" then
        match t with
        | String "010" t' => cur :: splitlines_from EmptyString t'
        | _ => cur :: splitlines_from EmptyString t
        end
      else if is_linebreak c then cur :: splitlines_from EmptyString t
      else splitlines_from (cur ++ String c EmptyString) t
  end.

Definition splitlines (s : string) : list string := splitlines_from EmptyString s.

(** The first word of a line. *)
Fixpoint word (s : string) : string :=
  match s with
  | EmptyString => EmptyString
  | String c t => if is_space c then EmptyString else String c (word t)
  end.

(** [line.split(None, 1)[0]]: the first run of characters that are no
    white space; a line with no such character has no column 0
    ([IndexError], here [None]). *)
Definition first_col (line : string) : option string :=
  match lstrip line with
  | EmptyString => None
  | s => Some (word s)
  end.

(** The body of the loop over the lines; [None] when it raises. *)
Definition scan_line (dois : list string) (line : string) : option (list string) :=
  let line := strip line in
  if negb (nonempty line) then Some dois
  else if startswith (upper line) "DOI" then Some dois
  else
    match first_col line with
    | None => None
    | Some col =>
        match normalize_doi col with
        | Some doi => Some (dois ++ [doi])%list
        | None => Some dois
        end
    end.

Fixpoint scan_lines (dois : list string) (lines : list string) : option (list string) :=
  match lines with
  | [] => Some dois
  | line :: rest =>
      match scan_line dois line with
      | Some dois' => scan_lines dois' rest
      | None => None
      end
  end.

(** The reader, given what [make_text_request] returned. *)
Definition read_dois_from_crossref_depositor_report (text : option string)
  : option (list string) :=
  match text with
  | None => Some []
  | Some text =>
      if negb (nonempty text) then Some []
      else scan_lines [] (splitlines text)
  end.

End DepositorReport.

(** ** Citation records and the insertion-ordered dictionary *)

Module Records.

(** A citation record: the [dict] with the keys ['doi'], ['title'],
    ['authors'], ['year'] and ['source'].  A title is [None] where the
    source sent JSON [null]. *)
Record citation := mkCitation {
  doi : string;
  title : option string;
  authors : list string;
  year : string;
  source : string
}.

(** Python truthiness of the three fields that are tested. *)
Definition has_title (t : option string) : bool :=
  match t with
  | Some (String _ _) => true
  | _ => false
  end.

Definition has_authors (a : list string) : bool :=
  match a with
  | [] => false
  | _ :: _ => true
  end.

Definition has_year (y : string) : bool := PyStr.nonempty y.

(** Assignment to one key of a record. *)
Definition set_title (v : option string) (r : citation) : citation :=
  mkCitation (doi r) v (authors r) (year r) (source r).
Definition set_authors (v : list string) (r : citation) : citation :=
  mkCitation (doi r) (title r) v (year r) (source r).
Definition set_year (v : string) (r : citation) : citation :=
  mkCitation (doi r) (title r) (authors r) v (source r).

(** Records are objects: a list of citations is a list of references
    into the heap, and an assignment is seen through every reference. *)
Definition loc := nat.
Definition heap := loc -> citation.

Definition store (h : heap) (l : loc) (r : citation) : heap :=
  fun l' => if Nat.eqb l' l then r else h l'.

End Records.

(** [collections.OrderedDict] with [str] keys: the entries in insertion
    order. *)
Module OrderedDict.
Section Dict.
Context {V : Type}.

Definition t := list (string * V).

Definition empty : t := [].

(** [m.get(k)]; [k in m] is [get m k] being [Some]. *)
Fixpoint get (m : t) (k : string) : option V :=
  match m with
  | [] => None
  | (k', v) :: m' => if String.eqb k' k then Some v else get m' k
  end.

(** [m[k] = v]: a key that is present keeps its place, a new key goes to
    the end. *)
Fixpoint set (m : t) (k : string) (v : V) : t :=
  match m with
  | [] => [(k, v)]
  | (k', v') :: m' =>
      if String.eqb k' k then (k', v) :: m' else (k', v') :: set m' k v
  end.

Definition keys (m : t) : list string := map fst m.
Definition values (m : t) : list V := map snd m.

(** [k in m], on the keys. *)
Definition has_key (m : t) (k : string) : bool :=
  existsb (fun k' => String.eqb k' k) (keys m).

End Dict.
Arguments t V : clear implicits.
End OrderedDict.

(** ** OpenAlex adapter ([get_citations_from_openalex], lines 241-304,
       and [extract_authors_from_openalex], lines 307-317) *)

Module OpenAlex.
Import Records.

(** One element of ['results']: the four selected keys of a work. *)
Record work := mkWork {
  w_doi : option string;
  w_title : option string;
  w_authorships : list (option string);
  w_publication_year : option Z
}.

(** An element of ['results'] is a work, or something the loop body
    raises on. *)
Inductive item :=
| Work (w : work)
| Faulty.

(** ['meta']: its ['next_cursor'], or something [meta.get] raises on. *)
Inductive meta :=
| Meta (next_cursor : option string)
| MetaFaulty.

(** What [make_request] returned for one page: nothing usable ([None],
    or a payload without ['results']), or a page. *)
Inductive reply :=
| NoData
| Page (results : list item) (m : meta).

(** [str] of an [int]. *)
Definition str_of_int (z : Z) : string :=
  DecimalString.NilZero.string_of_int (Z.to_int z).

Fixpoint extract_authors_from_openalex (authorships : list (option string))
  : list string :=
  match authorships with
  | [] => []
  | Some name :: rest =>
      if PyStr.nonempty name then name :: extract_authors_from_openalex rest
      else extract_authors_from_openalex rest
  | None :: rest => extract_authors_from_openalex rest
  end.

(** The record a work contributes, if any. *)
Definition citation_of (w : work) : option citation :=
  match w_doi w with
  | None => None
  | Some raw_doi =>
      if PyStr.nonempty raw_doi then
        match Normalizer.normalize_doi raw_doi with
        | Some citing_doi =>
            Some (mkCitation citing_doi
                    (w_title w)
                    (extract_authors_from_openalex (w_authorships w))
                    (match w_publication_year w with
                     | Some y => if (y =? 0)%Z then "" else str_of_int y
                     | None => ""
                     end)
                    "OpenAlex")
        | None => None
        end
      else None
  end.

(** [for work in data.get('results', [])]: the records appended, and
    whether the loop ran to its end ([false]: an element raised). *)
Fixpoint add_results (results : list item) (citations : list citation)
  : list citation * bool :=
  match results with
  | [] => (citations, true)
  | Faulty :: _ => (citations, false)
  | Work w :: rest =>
      match citation_of w with
      | Some c => add_results rest (citations ++ [c])%list
      | None => add_results rest citations
      end
  end.

(** The variables of the pagination loop, and the cursors sent so far. *)
Record state := mkState {
  citations : list citation;
  cursor : option string;
  page_count : nat;
  sent : list string
}.

Definition max_pages : nat := 50.

(** [cursor and page_count < max_pages]. *)
Definition loop_test (st : state) : bool :=
  match cursor st with
  | Some c => PyStr.nonempty c && (page_count st <? max_pages)
  | None => false
  end.

Inductive control :=
| Continue (st : state)
| Break (st : state)
| Raised (st : state).

(** What the first lookup returned, as far as lines 253-254 read it: its
    ['cited_by_count'], or a payload these lines raise on (one that is
    no object, or whose ['id'] is no string). *)
Inductive found :=
| Found (cited_by_count : Z)
| FoundFaulty.

Section Pages.

(** The source: what the request for page [page_count] with cursor [c]
    comes back with. *)
Variable source : nat -> string -> reply.

Definition loop_body (st : state) : control :=
  match cursor st with
  | None => Break st
  | Some c =>
      let st := mkState (citations st) (cursor st) (page_count st) (sent st ++ [c])%list in
      match source (page_count st) c with
      | NoData => Break st
      | Page results m =>
          match add_results results (citations st) with
          | (cs, false) => Raised (mkState cs (cursor st) (page_count st) (sent st))
          | (cs, true) =>
              match m with
              | MetaFaulty => Raised (mkState cs (cursor st) (page_count st) (sent st))
              | Meta next => Continue (mkState cs next (S (page_count st)) (sent st))
              end
          end
      end
  end.

(** The [while] loop run for at most [fuel] passes; [None] when the
    passes do not suffice.  A [break] and an exception both leave the
    loop: the handler of the function returns the records gathered. *)
Fixpoint while (fuel : nat) (st : state) : option state :=
  if negb (loop_test st) then Some st
  else
    match fuel with
    | O => None
    | S fuel' =>
        match loop_body st with
        | Continue st' => while fuel' st'
        | Break st' => Some st'
        | Raised st' => Some st'
        end
    end.

(** A source that answers every request with a page of works and a
    cursor. *)
Definition endless : Prop :=
  forall n c, exists ws next,
    source n c = Page (map Work ws) (Meta (Some next)) /\ PyStr.nonempty next = true.

(** The loop variables at the first test. *)
Definition start : state := mkState [] (Some "*") 0 [].

(** [work_data]: what the first lookup returned, [None] when it is
    [None] or empty.  On a payload that lines 253-254 raise on, the
    handler of the function returns the records gathered so far: none.
    Otherwise the work's id only goes into the requests. *)
Definition get_citations_from_openalex (work_data : option found) (fuel : nat)
  : option (list citation) :=
  match work_data with
  | None => Some []
  | Some FoundFaulty => Some []
  | Some (Found cited_by_count) =>
      if (cited_by_count =? 0)%Z then Some []
      else option_map citations (while fuel start)
  end.

End Pages.

End OpenAlex.

(** ** Merge/dedup engine ([merge_citations], lines 407-434) *)

Module Merge.
Import Records.

(** The [else] branch of [add_to_merged]: three guarded assignments to
    the record [existing], each reading the heap as the one before left
    it. *)
Definition backfill (h : heap) (existing citation : loc) : heap :=
  let h :=
    if negb (has_title (title (h existing))) && has_title (title (h citation))
    then store h existing (set_title (title (h citation)) (h existing))
    else h in
  let h :=
    if negb (has_authors (authors (h existing))) && has_authors (authors (h citation))
    then store h existing (set_authors (authors (h citation)) (h existing))
    else h in
  let h :=
    if negb (has_year (year (h existing))) && has_year (year (h citation))
    then store h existing (set_year (year (h citation)) (h existing))
    else h in
  h.

(** The record the three assignments leave in [existing]. *)
Definition merged_record (existing new : citation) : citation :=
  mkCitation
    (doi existing)
    (if negb (has_title (title existing)) && has_title (title new)
     then title new else title existing)
    (if negb (has_authors (authors existing)) && has_authors (authors new)
     then authors new else authors existing)
    (if negb (has_year (year existing)) && has_year (year new)
     then year new else year existing)
    (source existing).

(** First-insertion order, in the words of the design: of the records
    of a list, those that are the first with their doi, in the order of
    the list. *)
Fixpoint first_by_doi (h : heap) (cs : list loc) : list loc :=
  match cs with
  | [] => []
  | c :: rest =>
      c :: filter (fun x => negb (String.eqb (doi (h x)) (doi (h c))))
             (first_by_doi h rest)
  end.

(** The same on the identifiers alone. *)
Fixpoint first_seen (ds : list string) : list string :=
  match ds with
  | [] => []
  | d :: rest => d :: filter (fun x => negb (String.eqb x d)) (first_seen rest)
  end.

(** One pass of the loop of [add_to_merged]; [merged] maps a doi to the
    record first seen with it. *)
Definition add_one (st : OrderedDict.t loc * heap) (citation : loc)
  : OrderedDict.t loc * heap :=
  let (merged, h) := st in
  let d := doi (h citation) in
  match OrderedDict.get merged d with
  | None => (OrderedDict.set merged d citation, h)
  | Some existing => (merged, backfill h existing citation)
  end.

Definition add_to_merged (st : OrderedDict.t loc * heap) (citations_list : list loc)
  : OrderedDict.t loc * heap :=
  fold_left add_one citations_list st.

(** [merge_citations]: the list of the merged records, and the heap the
    two passes leave. *)
Definition merge_citations (h : heap) (openalex_citations opencitations_citations : list loc)
  : list loc * heap :=
  let st := add_to_merged (OrderedDict.empty, h) openalex_citations in
  let st := add_to_merged st opencitations_citations in
  (OrderedDict.values (fst st), snd st).

(** What the merge keeps true of the heap, from the heap [h0] it starts
    with and over the records [every] it is given. *)
Section Kept.
Variable h0 : heap.
Variable every : list loc.

(** A field of a record is the one it had, or it was empty and is now
    the non-empty one that another record of the same doi had. *)
Definition kept {A : Type} (has : A -> bool) (field : citation -> A) (h : heap) : Prop :=
  forall l,
    field (h l) = field (h0 l) \/
    (has (field (h0 l)) = false /\
     exists c, In c every /\ c <> l /\ doi (h0 c) = doi (h0 l) /\
               has (field (h0 c)) = true /\ field (h l) = field (h0 c)).

Record merge_inv (merged : OrderedDict.t loc) (h : heap) : Prop := {
  inv_doi : forall l, doi (h l) = doi (h0 l);
  inv_source : forall l, source (h l) = source (h0 l);
  inv_frame : forall l, ~ In l (OrderedDict.values merged) -> h l = h0 l;
  inv_entry : forall k e, In (k, e) merged -> doi (h0 e) = k /\ In e every;
  inv_nodup : NoDup (OrderedDict.keys merged);
  inv_title : kept has_title title h;
  inv_authors : kept has_authors authors h;
  inv_year : kept has_year year h
}.

End Kept.

End Merge.

(** ** Enrichment stage ([get_metadata_from_crossref], lines 351-404;
       [enrich_citation_metadata], lines 437-459) *)

Module Enrich.
Import Records.

(** One element of ['author']; a key that is absent reads as ['']. *)
Record author := mkAuthor {
  given : string;
  family : string;
  name : string
}.

(** ['date-parts'] of one date field; a field that is absent reads as
    the empty list, a part that is JSON [null] as [None]. *)
Definition date_parts := list (list (option Z)).

Record message := mkMessage {
  m_title : list string;
  m_author : list author;
  m_issued : date_parts;
  m_published_print : date_parts;
  m_published_online : date_parts;
  m_created : date_parts
}.

(** What [make_request] returned for a lookup: nothing usable ([None] or
    no ['message']), a message, or a payload the function raises on. *)
Inductive reply :=
| NoMessage
| Message (m : message)
| Malformed.

Definition full_name (a : author) : string :=
  if PyStr.nonempty (given a) && PyStr.nonempty (family a)
  then given a ++ " " ++ family a
  else if PyStr.nonempty (family a) then family a
  else if PyStr.nonempty (given a) then given a
  else name a.

Fixpoint author_names (l : list author) : list string :=
  match l with
  | [] => []
  | a :: rest =>
      if PyStr.nonempty (full_name a)
      then PyStr.strip (full_name a) :: author_names rest
      else author_names rest
  end.

(** The year a date field gives, if any. *)
Definition year_of (d : date_parts) : option string :=
  match d with
  | (Some year_value :: _) :: _ =>
      if (year_value =? 0)%Z then None else Some (OpenAlex.str_of_int year_value)
  | _ => None
  end.

(** The loop over ['issued'], ['published-print'], ['published-online']
    and ['created']: the first year found. *)
Fixpoint first_year (fields : list date_parts) : string :=
  match fields with
  | [] => ""
  | d :: rest =>
      match year_of d with
      | Some y => y
      | None => first_year rest
      end
  end.

Definition metadata := (option string * list string * string)%type.

Definition get_metadata_from_crossref (r : reply) : metadata :=
  match r with
  | NoMessage => (None, [], "")
  | Malformed => (None, [], "")
  | Message m =>
      (Some (match m_title m with
             | [] => ""
             | t :: _ => t
             end),
       author_names (m_author m),
       first_year [m_issued m; m_published_print m; m_published_online m; m_created m])
  end.

(** What can be observed of a run. *)
Inductive event :=
| Progress (current total : nat)
| Lookup (d : string)
| Delay.

(** [not citation.get('title') or not citation.get('authors') or not
    citation.get('year')]. *)
Definition incomplete (r : citation) : bool :=
  negb (has_title (title r)) || negb (has_authors (authors r)) || negb (has_year (year r)).

(** The three guarded assignments that follow a lookup. *)
Definition fill (h : heap) (c : loc) (md : metadata) : heap :=
  let '(t, a, y) := md in
  let h :=
    if has_title t && negb (has_title (title (h c)))
    then store h c (set_title t (h c)) else h in
  let h :=
    if has_authors a && negb (has_authors (authors (h c)))
    then store h c (set_authors a (h c)) else h in
  let h :=
    if has_year y && negb (has_year (year (h c)))
    then store h c (set_year y (h c)) else h in
  h.

(** The record the three assignments leave. *)
Definition filled_record (r : citation) (md : metadata) : citation :=
  let '(t, a, y) := md in
  mkCitation
    (doi r)
    (if has_title t && negb (has_title (title r)) then t else title r)
    (if has_authors a && negb (has_authors (authors r)) then a else authors r)
    (if has_year y && negb (has_year (year r)) then y else year r)
    (source r).

(** The identifiers looked up, in order. *)
Fixpoint lookups (log : list event) : list string :=
  match log with
  | [] => []
  | Lookup d :: rest => d :: lookups rest
  | _ :: rest => lookups rest
  end.

Section Run.

(** [crossref i d]: what the lookup of [d], made for the record of index
    [i], comes back with.  [progress_callback]: whether one was given. *)
Variable crossref : nat -> string -> reply.
Variable progress_callback : bool.

(** The body of the loop, for the record [c] of index [i]. *)
Definition enrich_one (total i : nat) (c : loc) (st : heap * list event)
  : heap * list event :=
  let (h, log) := st in
  let log := if progress_callback then (log ++ [Progress (i + 1) total])%list else log in
  if incomplete (h c) then
    let md := get_metadata_from_crossref (crossref i (doi (h c))) in
    (fill h c md, (log ++ [Lookup (doi (h c)); Delay])%list)
  else (h, log).

(** [for i, citation in enumerate(citations)], from index [i] on. *)
Fixpoint enrich_from (total i : nat) (citations : list loc) (st : heap * list event)
  : heap * list event :=
  match citations with
  | [] => st
  | c :: rest => enrich_from total (S i) rest (enrich_one total i c st)
  end.

(** [enrich_citation_metadata]: the list it returns is the one it was
    given; the heap and the log are what the run leaves. *)
Definition enrich_citation_metadata (h : heap) (citations : list loc)
  : list loc * (heap * list event) :=
  (citations, enrich_from (List.length citations) 0 citations (h, [])).

End Run.

End Enrich.

(** ** Pipeline orchestrator (the loop of [main], lines 636-648) *)

Module Orchestrator.
Import Records.

(** How [process_single_doi] ends for one identifier: it returns the
    list of citations, it raises an [Exception], or the operator
    interrupts it. *)
Inductive outcome :=
| Completes (citations : list loc)
| RaisesException
| RaisesKeyboardInterrupt.

Section Loop.

(** [process i d]: how the call [process_single_doi(d, i, total)] ends. *)
Variable process : nat -> string -> outcome.

(** [for i, doi in enumerate(unique_dois, 1)], from index [i] on. *)
Fixpoint loop (i : nat) (unique_dois : list string) (results : OrderedDict.t (list loc))
  : OrderedDict.t (list loc) :=
  match unique_dois with
  | [] => results
  | d :: rest =>
      match process i d with
      | Completes citations => loop (S i) rest (OrderedDict.set results d citations)
      | RaisesKeyboardInterrupt => results
      | RaisesException => loop (S i) rest (OrderedDict.set results d [])
      end
  end.

Definition main_loop (unique_dois : list string) : OrderedDict.t (list loc) :=
  loop 1 unique_dois OrderedDict.empty.

(** What a pass that is not interrupted stores. *)
Definition stored (o : outcome) : list loc :=
  match o with
  | Completes citations => citations
  | _ => []
  end.

(** The identifiers the loop gets to and is not interrupted at: those
    before the first interrupt. *)
Fixpoint processed (i : nat) (unique_dois : list string) : list string :=
  match unique_dois with
  | [] => []
  | d :: rest =>
      match process i d with
      | RaisesKeyboardInterrupt => []
      | _ => d :: processed (S i) rest
      end
  end.

End Loop.

End Orchestrator.

(** ** Publisher codes ([is_crossref_depositor_pubid], lines 184-188) *)

Module Pubid.
Import PyStr.

(** [\d*] up to the end of the string. *)
Fixpoint digits (s : string) : bool :=
  match s with
  | EmptyString => true
  | String c t => is_digit c && digits t
  end.

(** [re.fullmatch(r'[Jj]\d+', s)] as a test. *)
Definition pubid_pattern (s : string) : bool :=
  match s with
  | String c (String d t) =>
      (Ascii.eqb c "J" || Ascii.eqb c "j") && is_digit d && digits t
  | _ => false
  end.

Definition is_crossref_depositor_pubid (value : string) : bool :=
  if negb (nonempty value) then false
  else pubid_pattern (strip value).

(** [input_value.strip().upper()], the code [main] asks the report of. *)
Definition pubid_of (input_value : string) : string := upper (strip input_value).

End Pubid.

(** ** Citation-index adapter ([get_citations_from_opencitations],
       lines 320-348) *)

Module OpenCitations.
Import Records.

(** An element of the payload: a citation with its ['citing'] value
    ([None] when the key is absent or [null]), or something [item.get]
    raises on. *)
Inductive item :=
| Citing (citing : option string)
| Faulty.

(** The loop over the payload; an element that raises ends it, and the
    handler of the function returns the records gathered. *)
Fixpoint add_items (data : list item) (citations : list citation) : list citation :=
  match data with
  | [] => citations
  | Faulty :: _ => citations
  | Citing None :: rest => add_items rest citations
  | Citing (Some citing_doi) :: rest =>
      if PyStr.nonempty citing_doi then
        match Normalizer.normalize_doi citing_doi with
        | Some citing_doi =>
            add_items rest
              (citations ++ [mkCitation citing_doi (Some "") [] "" "OpenCitations"])%list
        | None => add_items rest citations
        end
      else add_items rest citations
  end.

(** [data]: what [make_request] returned, [None] when it is [None] or
    empty. *)
Definition get_citations_from_opencitations (data : option (list item)) : list citation :=
  match data with
  | None => []
  | Some data => add_items data []
  end.

End OpenCitations.

(** ** One identifier through the pipeline ([process_single_doi],
       lines 462-492) *)

Module Pipeline.
Import Records.

(** The records an adapter returns are new objects: they are stored at
    the free locations from [next] on. *)
Fixpoint alloc (h : heap) (next : loc) (records : list citation) : heap * list loc :=
  match records with
  | [] => (h, [])
  | r :: rest =>
      let (h', ls) := alloc (store h next r) (S next) rest in
      (h', next :: ls)
  end.

(** [process_single_doi], given what the two adapters returned; the
    progress callback it passes on only prints. *)
Definition process_single_doi (crossref : nat -> string -> Enrich.reply)
    (h : heap) (next : loc) (openalex_citations opencitations_citations : list citation)
  : list loc * (heap * list Enrich.event) :=
  let (h1, oa) := alloc h next openalex_citations in
  let (h2, oc) := alloc h1 (next + List.length openalex_citations) opencitations_citations in
  let (merged_citations, h3) := Merge.merge_citations h2 oa oc in
  match merged_citations with
  | [] => ([], (h3, []))
  | _ :: _ => Enrich.enrich_citation_metadata crossref true h3 merged_citations
  end.

End Pipeline.

(** ** The rows of the export ([save_results_to_csv], lines 495-546) *)

Module CsvExport.
Import Records.

(** [sep.join(l)]. *)
Fixpoint join (sep : string) (l : list string) : string :=
  match l with
  | [] => EmptyString
  | [x] => x
  | x :: rest => x ++ sep ++ join sep rest
  end.

(** A row as it is handed to [writer.writerow]; a title that is [None]
    is written as an empty cell. *)
Definition row := list (option string).

(** The rows of one identifier that has citations; [seen] is the set
    [seen_citing_dois]. *)
Fixpoint citation_rows (h : heap) (queried_doi : string) (seen : list string)
    (citations : list loc) : list row :=
  match citations with
  | [] => []
  | c :: rest =>
      let citing_doi := doi (h c) in
      if existsb (String.eqb citing_doi) seen
      then citation_rows h queried_doi seen rest
      else
        [Some queried_doi; Some citing_doi; title (h c);
         Some (join "; " (authors (h c))); Some (year (h c))]
        :: citation_rows h queried_doi (citing_doi :: seen) rest
  end.

(** The row of an identifier without citations; its second cell says
    that there is no citation record. *)
Definition placeholder (queried_doi : string) : row :=
  [Some queried_doi; Some "(无引用记录)"; Some ""; Some ""; Some ""].

(** The rows of one entry of the result mapping. *)
Definition entry_rows (h : heap) (entry : string * list loc) : list row :=
  match snd entry with
  | [] => [placeholder (fst entry)]
  | _ :: _ => citation_rows h (fst entry) [] (snd entry)
  end.

(** The rows that follow the title row, in the order written. *)
Definition data_rows (h : heap) (results : OrderedDict.t (list loc)) : list row :=
  flat_map (entry_rows h) results.

End CsvExport.

(** ** The identifiers [main] starts from (lines 592-633) *)

Module Main.
Import Records.

(** [OrderedDict.fromkeys(dois)]. *)
Definition fromkeys (dois : list string) : OrderedDict.t unit :=
  fold_left (fun m d => OrderedDict.set m d tt) dois OrderedDict.empty.

(** Where the identifiers come from. *)
Inductive input_kind :=
| FromDepositorReport
| FromCsvFile.

(** [main] from the identifiers read to the end of the loop; [confirm]
    is the line the operator answers with.  [None]: [main] returns
    before the loop. *)
Definition run (process : nat -> string -> Orchestrator.outcome)
    (kind : input_kind) (dois : list string) (confirm : string)
  : option (OrderedDict.t (list loc)) :=
  match dois with
  | [] => None
  | _ :: _ =>
      let unique_dois :=
        match kind with
        | FromDepositorReport => dois
        | FromCsvFile => OrderedDict.keys (fromkeys dois)
        end in
      if String.eqb (PyStr.lower (PyStr.strip confirm)) "y"
      then Some (Orchestrator.main_loop process unique_dois)
      else None
  end.

End Main.

(** ** What the statements speak of

    Shapes of values and of logs that the properties below are stated
    with: none of them is part of the program. *)

Module Shapes.
Import PyStr Normalizer Records.

(** The normaliser as a function of the decoded input in lower case. *)
Definition normalize_lower (l : string) : option string :=
  let s := strip l in
  let d := strip (remove_prefix prefixes s s) in
  if doi_pattern d then Some d else None.

(** Strings of white space. *)
Fixpoint spaces (w : string) : bool :=
  match w with
  | EmptyString => true
  | String c t => is_space c && spaces t
  end.

(** An identifier in canonical form. *)
Definition canonical (d : string) : Prop :=
  doi_pattern d = true /\ lower d = d /\ strip d = d.

(** What one line contributes. *)
Definition line_dois (line : string) : list string :=
  let line := strip line in
  if negb (nonempty line) then []
  else if startswith (upper line) "DOI" then []
  else
    match DepositorReport.first_col line with
    | Some col =>
        match normalize_doi col with
        | Some d => [d]
        | None => []
        end
    | None => []
    end.

(** A record as the OpenAlex adapter builds it. *)
Definition from_openalex (r : citation) : Prop :=
  source r = "OpenAlex" /\ canonical (doi r) /\
  Forall (fun name => nonempty name = true) (authors r).

(** A record as the citation-index adapter builds it. *)
Definition from_opencitations (r : citation) : Prop :=
  source r = "OpenCitations" /\ canonical (doi r) /\
  title r = Some "" /\ authors r = [] /\ year r = "".

(** The first value of a list that is not empty; [default] when there is
    none. *)
Definition first_nonempty {A : Type} (has : A -> bool) (values : list A) (default : A) : A :=
  match find has values with
  | Some v => v
  | None => default
  end.

(** What no run changes: the doi, the source tag and the fields that are
    not empty. *)
Definition preserved (h h' : heap) : Prop :=
  forall l,
    doi (h' l) = doi (h l) /\ source (h' l) = source (h l) /\
    (has_title (title (h l)) = true -> title (h' l) = title (h l)) /\
    (has_authors (authors (h l)) = true -> authors (h' l) = authors (h l)) /\
    (has_year (year (h l)) = true -> year (h' l) = year (h l)).

(** The log without the calls of the progress callback, and those calls. *)
Fixpoint requests_of (log : list Enrich.event) : list Enrich.event :=
  match log with
  | [] => []
  | Enrich.Progress _ _ :: rest => requests_of rest
  | e :: rest => e :: requests_of rest
  end.

Fixpoint progress_of (log : list Enrich.event) : list Enrich.event :=
  match log with
  | [] => []
  | Enrich.Progress c t :: rest => Enrich.Progress c t :: progress_of rest
  | _ :: rest => progress_of rest
  end.

(** Metadata with a title, an author and a year. *)
Definition complete_metadata (md : Enrich.metadata) : bool :=
  let '(t, a, y) := md in has_title t && has_authors a && has_year y.

(** The row of one citation, and the cell of a row that holds the citing
    doi. *)
Definition row_of (h : heap) (queried_doi : string) (c : loc) : CsvExport.row :=
  [Some queried_doi; Some (doi (h c)); title (h c);
   Some (CsvExport.join "; " (authors (h c))); Some (year (h c))].

Definition citing_cell (r : CsvExport.row) : option string :=
  match r with
  | _ :: Some d :: _ => Some d
  | _ => None
  end.

End Shapes.

(** ** Scenarios

    Concrete runs, used to exercise the statements below. *)

Module Scenarios.
Import Records.

(** A 500, a timeout and then a 404, under the default of three
    attempts. *)
Definition env_500_timeout_404 (k : nat) : Fetcher.outcome string :=
  match k with
  | 0 => Fetcher.Responds 500%Z None
  | 1 => Fetcher.Fails Fetcher.Timeout
  | _ => Fetcher.Responds 404%Z (Some "Not Found")
  end.

Definition env_429_429_200 (k : nat) : Fetcher.outcome string :=
  match k with
  | 0 => Fetcher.Responds 429%Z None
  | 1 => Fetcher.Responds 429%Z None
  | _ => Fetcher.Responds 200%Z (Some "{}")
  end.

(** A source whose every page is empty and names a next page. *)
Definition source_always_next (n : nat) (c : string) : OpenAlex.reply :=
  OpenAlex.Page [] (OpenAlex.Meta (Some "next")).

(** Three identifiers: the first has no citations, the second raises,
    the third is cited by the records 4 and 5. *)
Definition process_example (i : nat) (d : string) : Orchestrator.outcome :=
  match i with
  | 1 => Orchestrator.Completes []
  | 2 => Orchestrator.RaisesException
  | _ => Orchestrator.Completes [4; 5]
  end.

(** Two records of one doi, from two sources. *)
Definition heap_two_sources : heap :=
  fun l =>
    match l with
    | 0 => mkCitation "10.1000/a" (Some "X") [] "" "OpenAlex"
    | 1 => mkCitation "10.1000/a" (Some "Y") ["B. Author"] "2020" "OpenCitations"
    | _ => mkCitation "" None [] "" ""
    end.

(** Three merged records: one complete, one with a doi only, one with a
    title only; the lookup finds the second and fails on the third. *)
Definition heap_to_enrich : heap :=
  fun l =>
    match l with
    | 0 => mkCitation "10.1000/a" (Some "Full") ["A. Author"] "2019" "OpenAlex"
    | 1 => mkCitation "10.1000/b" (Some "") [] "" "OpenCitations"
    | _ => mkCitation "10.1000/c" (Some "Kept") [] "" "OpenAlex"
    end.

Definition crossref_example (i : nat) (d : string) : Enrich.reply :=
  match i with
  | 1 => Enrich.Message (Enrich.mkMessage ["Found"; "Other"]
                    [Enrich.mkAuthor "Ada" "Lovelace" ""; Enrich.mkAuthor "" "" "Analytical Society"]
                    [[None]] [[Some 1843%Z; Some 10%Z]] [] [[Some 2001%Z]])
  | _ => Enrich.NoMessage
  end.

(** Three records of one doi: the first without a title, the second
    with one, the third with another title and with authors. *)
Definition heap_three_sources : heap :=
  fun l =>
    match l with
    | 0 => mkCitation "10.1000/a" None [] "" "OpenAlex"
    | 1 => mkCitation "10.1000/a" (Some "T1") [] "" "OpenAlex"
    | _ => mkCitation "10.1000/a" (Some "T2") ["B. Author"] "" "OpenCitations"
    end.

(** A source with two pages: the first has a work with an identifier, a
    work without one and a work whose identifier is no doi, and names a
    next page; the second has no data. *)
Definition source_two_pages (n : nat) (c : string) : OpenAlex.reply :=
  match n with
  | 0 => OpenAlex.Page
           [OpenAlex.Work (OpenAlex.mkWork (Some "https://doi.org/10.1000/ABC") (Some "T")
                             [Some "A. Author"; None; Some ""] (Some 2020%Z));
            OpenAlex.Work (OpenAlex.mkWork None (Some "U") [] None);
            OpenAlex.Work (OpenAlex.mkWork (Some "not a doi") None [] None)]
           (OpenAlex.Meta (Some "c1"))
  | _ => OpenAlex.NoData
  end.

(** Three passes: the first returns the records 4 and 5, the second is
    interrupted, the third would return the record 6. *)
Definition process_interrupted (i : nat) (d : string) : Orchestrator.outcome :=
  match i with
  | 1 => Orchestrator.Completes [4; 5]
  | 2 => Orchestrator.RaisesKeyboardInterrupt
  | _ => Orchestrator.Completes [6]
  end.

(** A timeout, then the operator's interrupt. *)
Definition env_timeout_interrupt (k : nat) : Fetcher.outcome string :=
  match k with
  | 0 => Fetcher.Fails Fetcher.Timeout
  | _ => Fetcher.Fails Fetcher.KeyboardInterrupt
  end.

(** A 200 whose body does not decode, then a 200 whose body does. *)
Definition env_undecodable_200 (k : nat) : Fetcher.outcome string :=
  match k with
  | 0 => Fetcher.Responds 200%Z None
  | _ => Fetcher.Responds 200%Z (Some "{}")
  end.

(** A 429, a 404 and then a 200 whose body decodes. *)
Definition env_429_404_200 (k : nat) : Fetcher.outcome string :=
  match k with
  | 0 => Fetcher.Responds 429%Z None
  | 1 => Fetcher.Responds 404%Z None
  | _ => Fetcher.Responds 200%Z (Some "{}")
  end.

End Scenarios.

Import PyStr Normalizer Scenarios.

(** * Properties *)

(** ** Characters and strings *)

Ltac each_char c := destruct c as [[] [] [] [] [] [] [] []].

Lemma is_space_lower_char c : is_space (lower_char c) = is_space c.
Proof. each_char c; reflexivity. Qed.

Lemma is_digit_lower_char c : is_digit (lower_char c) = is_digit c.
Proof. each_char c; reflexivity. Qed.

Lemma lower_char_idem c : lower_char (lower_char c) = lower_char c.
Proof. each_char c; reflexivity. Qed.

Lemma eqb_lower_char_nl c : Ascii.eqb (lower_char c) "010" = Ascii.eqb c "010".
Proof. each_char c; reflexivity. Qed.

Lemma eqb_lower_char_percent c : Ascii.eqb (lower_char c) "%" = Ascii.eqb c "%".
Proof. each_char c; reflexivity. Qed.

Lemma upper_lower_doi a b c :
  (Ascii.eqb "D" (upper_char a) && (Ascii.eqb "O" (upper_char b) && Ascii.eqb "I" (upper_char c))) =
  (Ascii.eqb "d" (lower_char a) && (Ascii.eqb "o" (lower_char b) && Ascii.eqb "i" (lower_char c))).
Proof.
  assert (Ha : Ascii.eqb "D" (upper_char a) = Ascii.eqb "d" (lower_char a)) by (each_char a; reflexivity).
  assert (Hb : Ascii.eqb "O" (upper_char b) = Ascii.eqb "o" (lower_char b)) by (each_char b; reflexivity).
  assert (Hc : Ascii.eqb "I" (upper_char c) = Ascii.eqb "i" (lower_char c)) by (each_char c; reflexivity).
  rewrite Ha, Hb, Hc. reflexivity.
Qed.

Lemma lower_app s t : lower (s ++ t) = lower s ++ lower t.
Proof. induction s as [|c s IH]; simpl; [reflexivity|]. unfold lower in *. simpl. now rewrite IH. Qed.

Lemma lower_idem s : lower (lower s) = lower s.
Proof.
  unfold lower. induction s as [|c s IH]; simpl; [reflexivity|].
  now rewrite lower_char_idem, IH.
Qed.

Lemma lower_length s : String.length (lower s) = String.length s.
Proof. unfold lower. induction s as [|c s IH]; simpl; congruence. Qed.

Lemma lstrip_lower s : lstrip (lower s) = lower (lstrip s).
Proof.
  unfold lower. induction s as [|c s IH]; simpl; [reflexivity|].
  rewrite is_space_lower_char. destruct (is_space c); [exact IH | reflexivity].
Qed.

Lemma rstrip_lower s : rstrip (lower s) = lower (rstrip s).
Proof.
  unfold lower. induction s as [|c s IH]; simpl; [reflexivity|].
  rewrite IH, is_space_lower_char.
  destruct (rstrip s); simpl; [destruct (is_space c)|]; reflexivity.
Qed.

Lemma strip_lower s : strip (lower s) = lower (strip s).
Proof. unfold strip. now rewrite rstrip_lower, lstrip_lower. Qed.

Lemma lstrip_idem s : lstrip (lstrip s) = lstrip s.
Proof.
  induction s as [|c s IH]; simpl; [reflexivity|].
  destruct (is_space c) eqn:E; [exact IH|]. simpl. now rewrite E.
Qed.

Lemma rstrip_idem s : rstrip (rstrip s) = rstrip s.
Proof.
  induction s as [|c s IH]; simpl; [reflexivity|].
  destruct (rstrip s) as [|d r] eqn:E.
  - destruct (is_space c) eqn:Ec; simpl; [reflexivity|]. now rewrite Ec.
  - simpl. simpl in IH. rewrite IH. reflexivity.
Qed.

Lemma rstrip_lstrip s : rstrip (lstrip s) = lstrip (rstrip s).
Proof.
  induction s as [|c s IH]; simpl; [reflexivity|].
  destruct (is_space c) eqn:Ec.
  - rewrite IH. destruct (rstrip s) as [|d r]; simpl; rewrite ?Ec; reflexivity.
  - simpl. destruct (rstrip s) as [|d r]; simpl; rewrite ?Ec; reflexivity.
Qed.

Lemma strip_idem s : strip (strip s) = strip s.
Proof.
  unfold strip. now rewrite rstrip_lstrip, rstrip_idem, lstrip_idem.
Qed.

Lemma lstrip_strip s : lstrip (strip s) = strip s.
Proof. unfold strip. apply lstrip_idem. Qed.

(** ** The pattern and the normaliser *)

Lemma eqb_lower_char_sign c (d : ascii) :
  In d ["1"; "0"; "."; "/"]%char ->
  Ascii.eqb (lower_char c) d = Ascii.eqb c d.
Proof.
  intros Hd. simpl in Hd.
  repeat (destruct Hd as [<- | Hd]; [each_char c; reflexivity|]).
  destruct Hd.
Qed.

Lemma digit_run_lower s : digit_run (lower s) = digit_run s.
Proof.
  unfold lower. induction s as [|c s IH]; simpl; [reflexivity|].
  rewrite is_digit_lower_char, IH. reflexivity.
Qed.

Lemma drop_lower n s : drop n (lower s) = lower (drop n s).
Proof.
  unfold lower. revert s. induction n as [|n IH]; intros [|c s]; simpl; auto.
Qed.

Lemma dot_plus_end_lower s : dot_plus_end (lower s) = dot_plus_end s.
Proof.
  unfold lower. induction s as [|c s IH]; [reflexivity|].
  cbn [smap dot_plus_end]. rewrite eqb_lower_char_nl.
  destruct (Ascii.eqb c "010"); [reflexivity|].
  destruct s as [|d [|e s']]; [reflexivity| |].
  - cbn [smap]. rewrite eqb_lower_char_nl.
    destruct (Ascii.eqb d "010"); [reflexivity|]. exact IH.
  - exact IH.
Qed.

Lemma doi_pattern_lower s : doi_pattern (lower s) = doi_pattern s.
Proof.
  destruct s as [|a [|b [|c t]]]; try reflexivity.
  unfold doi_pattern, lower. cbn [smap]. fold (lower t).
  rewrite !eqb_lower_char_sign by (simpl; auto).
  rewrite digit_run_lower, drop_lower.
  destruct (drop (digit_run t) t) as [|d u]; [reflexivity|].
  unfold lower. cbn [smap]. fold (lower u).
  rewrite eqb_lower_char_sign by (simpl; auto).
  rewrite dot_plus_end_lower. reflexivity.
Qed.

(** A string that matches the pattern starts with the character 1. *)
Lemma doi_pattern_head s :
  doi_pattern s = true -> exists t, s = String "1" t.
Proof.
  destruct s as [|a [|b [|c t]]]; try discriminate.
  unfold doi_pattern. intros H.
  destruct (Ascii.eqb a "1") eqn:Ea; [|discriminate H].
  apply Ascii.eqb_eq in Ea. subst a. eauto.
Qed.

(** No prefix of the list starts with the character 1. *)
Lemma remove_prefix_canonical t u :
  remove_prefix prefixes (String "1" t) u = u.
Proof. reflexivity. Qed.

(** On a stripped string without escapes that matches the pattern, the
    normaliser only changes the case. *)
Lemma normalize_doi_clean r :
  strip r = r -> unquote r = r -> doi_pattern r = true ->
  normalize_doi r = Some (lower r).
Proof.
  intros Hs Hu Hp.
  destruct (doi_pattern_head r Hp) as [t Ht].
  unfold normalize_doi.
  replace (nonempty r) with true by (subst r; reflexivity).
  cbn [negb]. rewrite Hu, Hs.
  assert (Hr : remove_prefix prefixes (lower r) r = r).
  { rewrite Ht at 1. unfold lower; cbn [smap].
    change (lower_char "1") with "1"%char. apply remove_prefix_canonical. }
  rewrite Hr, Hs, Hp. reflexivity.
Qed.

(** C3, as stated, fails: an escaped percent sign is decoded by the first
    pass and the escape it uncovers by the second.  [10.1234/a%2541]
    normalises to [10.1234/a%41], which normalises to [10.1234/aa]. *)
Lemma normalize_doi_not_idempotent :
  normalize_doi "10.1234/a%2541" = Some "10.1234/a%41" /\
  normalize_doi "10.1234/a%41" = Some "10.1234/aa" /\
  normalize_doi "10.1234/a%41" <> normalize_doi "10.1234/a%2541".
Proof.
  repeat split; try reflexivity.
  vm_compute. discriminate.
Qed.

(** C3 (amended): when [normalize_doi] succeeds on [x] with the canonical
    value [y], and percent-decoding leaves [y] as it is, normalising [y]
    returns [y]. *)
Theorem normalize_doi_idempotent_without_escapes (x y : string) :
  normalize_doi x = Some y ->
  unquote y = y ->
  normalize_doi y = Some y.
Proof.
  unfold normalize_doi at 1.
  destruct (negb (nonempty x)); [discriminate|].
  set (d := strip (remove_prefix prefixes (lower (strip (unquote x))) (strip (unquote x)))).
  destruct (doi_pattern d) eqn:Hp; [|discriminate].
  intros [= <-] Hu.
  rewrite <- (lower_idem d) at 2.
  apply normalize_doi_clean.
  - rewrite strip_lower. unfold d. now rewrite strip_idem.
  - exact Hu.
  - now rewrite doi_pattern_lower.
Qed.

Lemma normalize_doi_idempotent_witness :
  normalize_doi " DOI:10.1000/AbC%2Fd " = Some "10.1000/abc/d" /\
  normalize_doi "10.1000/abc/d" = Some "10.1000/abc/d".
Proof.
  split; [reflexivity|].
  apply (normalize_doi_idempotent_without_escapes " DOI:10.1000/AbC%2Fd " "10.1000/abc/d");
    reflexivity.
Defined.

(** ** Prefixes *)

Lemma has_percent_lower s : has_percent (lower s) = has_percent s.
Proof.
  unfold lower. induction s as [|c s IH]; simpl; [reflexivity|].
  now rewrite eqb_lower_char_percent, IH.
Qed.

Lemma starts_with_space_lower s : starts_with_space (lower s) = starts_with_space s.
Proof. destruct s; simpl; [reflexivity | apply is_space_lower_char]. Qed.

Lemma unquote_app p r : has_percent p = false -> unquote (p ++ r) = p ++ unquote r.
Proof.
  induction p as [|c p IH]; simpl; [reflexivity|].
  intros H. apply orb_false_elim in H as [Hc Hp].
  rewrite Hc, IH by exact Hp. reflexivity.
Qed.

Lemma rstrip_app p r : rstrip r <> "" -> rstrip (p ++ r) = p ++ rstrip r.
Proof.
  intros Hr. induction p as [|c p IH]; simpl; [reflexivity|].
  rewrite IH. destruct (p ++ rstrip r) eqn:E; [|reflexivity].
  destruct p; simpl in E; [contradiction | discriminate].
Qed.

Lemma lstrip_head s : starts_with_space s = false -> lstrip s = s.
Proof. destruct s as [|c s]; simpl; [discriminate|]. now intros ->. Qed.

Lemma rstrip_of_stripped r t : r = String "1" t -> strip r = r -> rstrip r = r.
Proof.
  intros -> H. unfold strip in H. rewrite lstrip_head in H; [exact H|].
  simpl. destruct (rstrip t); reflexivity.
Qed.

Lemma drop_app p r : drop (String.length p) (p ++ r) = r.
Proof. induction p as [|c p IH]; simpl; auto. Qed.

Lemma normalize_doi_with_prefix (lit p r : string) :
  lower p = lit ->
  has_percent lit = false ->
  starts_with_space lit = false ->
  (forall u v, remove_prefix prefixes (lit ++ u) v = drop (String.length lit) v) ->
  strip r = r -> unquote r = r -> doi_pattern r = true ->
  normalize_doi (p ++ r) = Some (lower r).
Proof.
  intros Hlit Hpc Hsp Hcut Hs Hu Hp.
  destruct (doi_pattern_head r Hp) as [t Ht].
  assert (Hrs : rstrip r = r) by (eapply rstrip_of_stripped; eauto).
  assert (Hne : rstrip r <> "") by (rewrite Hrs, Ht; discriminate).
  assert (Hpp : has_percent p = false) by (rewrite <- has_percent_lower, Hlit; exact Hpc).
  assert (Hps : starts_with_space p = false)
    by (rewrite <- starts_with_space_lower, Hlit; exact Hsp).
  unfold normalize_doi.
  replace (nonempty (p ++ r)) with true
    by (destruct p; [subst r|]; reflexivity).
  cbn [negb].
  rewrite unquote_app, Hu by exact Hpp.
  assert (Hst : strip (p ++ r) = p ++ r).
  { unfold strip. rewrite rstrip_app, Hrs by exact Hne.
    apply lstrip_head. destruct p; [discriminate Hps | exact Hps]. }
  rewrite Hst, lower_app, Hlit, Hcut.
  rewrite <- Hlit, lower_length, drop_app, Hs, Hp. reflexivity.
Qed.

(** C4, as stated, fails: the registrant [1] of the three inputs has one
    digit where the pattern asks for four, and all three are rejected. *)
Lemma normalize_doi_short_registrant_rejected :
  normalize_doi "https://doi.org/10.1/AbC" = None /\
  normalize_doi "DOI:10.1/AbC" = None /\
  normalize_doi "10.1/abc" = None.
Proof. repeat split; reflexivity. Qed.

(** C4 (amended): with a registrant of four digits or more the normaliser
    is prefix- and case-insensitive.  For a known prefix [p] in any
    letter case, or no prefix, and a remainder [r] that is stripped, has
    no escape and matches the pattern, [p ++ r] normalises to [lower r],
    which is in lower case; so [https://doi.org/10.1000/AbC],
    [DOI:10.1000/AbC] and [10.1000/abc] all yield [10.1000/abc]. *)
Theorem normalize_doi_prefix_case_insensitive :
  (forall p r : string,
      p = "" \/ In (lower p) prefixes ->
      strip r = r -> unquote r = r -> doi_pattern r = true ->
      normalize_doi (p ++ r) = Some (lower r) /\ lower (lower r) = lower r) /\
  normalize_doi "https://doi.org/10.1000/AbC" = Some "10.1000/abc" /\
  normalize_doi "DOI:10.1000/AbC" = Some "10.1000/abc" /\
  normalize_doi "10.1000/abc" = Some "10.1000/abc".
Proof.
  split; [|repeat split; reflexivity].
  intros p r Hp Hs Hu Hpat. split; [|apply lower_idem].
  destruct Hp as [-> | Hin]; [now apply normalize_doi_clean|].
  unfold prefixes in Hin. simpl in Hin.
  destruct Hin as [H|[H|[H|[H|[H|[]]]]]];
    (eapply normalize_doi_with_prefix;
     [symmetry; exact H | reflexivity | reflexivity | reflexivity | assumption..]).
Qed.

Lemma normalize_doi_prefix_case_insensitive_witness :
  normalize_doi ("hTTps://DOI.org/" ++ "10.1000/AbC") = Some "10.1000/abc".
Proof.
  destruct normalize_doi_prefix_case_insensitive as [H _].
  destruct (H "hTTps://DOI.org/" "10.1000/AbC") as [E _];
    [right; left; reflexivity | reflexivity | reflexivity | reflexivity | exact E].
Defined.

(** ** The Depositor-Report reader *)

Import DepositorReport.

Lemma startswith_upper_doi s :
  startswith (upper s) "DOI" = startswith (lower s) "doi".
Proof.
  destruct s as [|a [|b [|c t]]]; try reflexivity.
  - unfold upper, lower; simpl. now rewrite !andb_false_r.
  - unfold upper, lower; simpl. now rewrite !andb_false_r.
  - unfold upper, lower; simpl. rewrite !andb_true_r. apply upper_lower_doi.
Qed.

Lemma startswith_app s p q : startswith s (p ++ q) = true -> startswith s p = true.
Proof.
  revert s. induction p as [|a p IH]; intros s; simpl; [reflexivity|].
  destruct s as [|b s]; [discriminate|].
  intros H. apply andb_true_iff in H as [-> H]. simpl. now apply IH.
Qed.

Lemma startswith_word s p : startswith (word s) p = true -> startswith s p = true.
Proof.
  revert s. induction p as [|a p IH]; intros s; simpl; [reflexivity|].
  destruct s as [|b s]; simpl; [discriminate|].
  destruct (is_space b); [discriminate|].
  intros H. apply andb_true_iff in H as [-> H]. simpl. now apply IH.
Qed.

Lemma word_lower s : word (lower s) = lower (word s).
Proof.
  unfold lower. induction s as [|c s IH]; simpl; [reflexivity|].
  rewrite is_space_lower_char. destruct (is_space c); simpl; [reflexivity|].
  now rewrite IH.
Qed.

Lemma first_col_prefix line col p :
  first_col (strip line) = Some col ->
  startswith (lower col) p = true ->
  startswith (lower (strip line)) p = true.
Proof.
  unfold first_col. rewrite lstrip_strip.
  destruct (strip line) as [|c t] eqn:E; [discriminate|].
  intros H. assert (Hc : col = word (String c t)) by congruence.
  rewrite Hc, <- word_lower. apply startswith_word.
Qed.

Lemma scan_line_header dois line :
  startswith (lower (strip line)) "doi" = true -> scan_line dois line = Some dois.
Proof.
  intros H. unfold scan_line.
  destruct (strip line) as [|c t] eqn:E; [discriminate H|].
  cbn [nonempty negb]. now rewrite startswith_upper_doi, H.
Qed.

Lemma scan_lines_skip pre line post :
  (forall dois, scan_line dois line = Some dois) ->
  forall dois, scan_lines dois (pre ++ line :: post) = scan_lines dois (pre ++ post).
Proof.
  intros H. induction pre as [|l pre IH]; intros dois; simpl.
  - now rewrite H.
  - destruct (scan_line dois l); [apply IH | reflexivity].
Qed.

Lemma read_report_lines text :
  read_dois_from_crossref_depositor_report (Some text) = scan_lines [] (splitlines text).
Proof.
  unfold read_dois_from_crossref_depositor_report.
  destruct text; reflexivity.
Qed.

(** The loop never raises: the line it asks the first column of has been
    stripped and found non-empty. *)
Lemma scan_line_returns dois line : scan_line dois line <> None.
Proof.
  unfold scan_line, first_col. rewrite lstrip_strip.
  destruct (strip line) as [|c t]; cbn [nonempty negb]; [discriminate|].
  destruct (startswith _ _); [discriminate|].
  destruct (normalize_doi _); discriminate.
Qed.

(** C10: a line that, stripped, begins with [doi] in any letter case is
    passed over, so the report reads as it does without that line; this
    holds in particular for a line whose first column is an identifier
    with a [doi:] prefix that [normalize_doi] accepts. *)
Theorem depositor_report_doi_lines_dropped :
  (forall text text' pre line post,
      splitlines text = (pre ++ line :: post)%list ->
      splitlines text' = (pre ++ post)%list ->
      startswith (lower (strip line)) "doi" = true ->
      read_dois_from_crossref_depositor_report (Some text) =
      read_dois_from_crossref_depositor_report (Some text')) /\
  (forall dois line col d,
      first_col (strip line) = Some col ->
      startswith (lower col) "doi:" = true ->
      normalize_doi col = Some d ->
      startswith (lower (strip line)) "doi" = true /\
      scan_line dois line = Some dois).
Proof.
  split.
  - intros text text' pre line post Ht Ht' Hd.
    rewrite !read_report_lines, Ht, Ht'.
    apply scan_lines_skip. intros dois. now apply scan_line_header.
  - intros dois line col d Hc Hp _.
    assert (H : startswith (lower (strip line)) "doi" = true).
    { apply (startswith_app _ "doi" ":"). eapply first_col_prefix; eauto. }
    split; [exact H | now apply scan_line_header].
Qed.

Lemma depositor_report_doi_lines_dropped_witness :
  read_dois_from_crossref_depositor_report
    (Some ("10.1000/a 2019" ++ nl ++ "doi:10.1234/abc 2020" ++ nl ++ "10.5678/xyz 2021")) =
  read_dois_from_crossref_depositor_report
    (Some ("10.1000/a 2019" ++ nl ++ "10.5678/xyz 2021")) /\
  normalize_doi "doi:10.1234/abc" = Some "10.1234/abc" /\
  scan_line ["10.1000/a"] "doi:10.1234/abc 2020" = Some ["10.1000/a"].
Proof.
  split; [|split; [reflexivity|]].
  - apply (proj1 depositor_report_doi_lines_dropped _ _
             ["10.1000/a 2019"] "doi:10.1234/abc 2020" ["10.5678/xyz 2021"]);
      reflexivity.
  - apply (proj2 depositor_report_doi_lines_dropped
             ["10.1000/a"] "doi:10.1234/abc 2020" "doi:10.1234/abc" "10.1234/abc");
      reflexivity.
Defined.

Example depositor_report_reads :
  read_dois_from_crossref_depositor_report
    (Some ("DOI  Deposited" ++ nl ++ "10.1000/a 2019" ++ nl ++ nl ++
           "  https://doi.org/10.5678/XYZ 2021" ++ nl ++ "n/a" ++ nl)) =
  Some ["10.1000/a"; "10.5678/xyz"].
Proof. reflexivity. Qed.

(** ** The fetcher *)

Import Fetcher.

Section FetcherFacts.
Context {Body : Type}.
Variable env : nat -> outcome Body.

Lemma handlers_raise a (o : outcome Body) e :
  handlers (try_block a o) = Raise e -> o = Fails KeyboardInterrupt.
Proof.
  destruct o as [s [b|]|[]]; simpl;
    repeat (match goal with |- context [(?x =? ?y)%Z] => destruct (x =? y)%Z end; simpl);
    try discriminate; reflexivity.
Qed.

Lemma requested_from n a k :
  requested k (snd (attempts env n a)) -> a <= k < a + n.
Proof.
  unfold requested. revert a. induction n as [|n IH]; intros a; simpl; [tauto|].
  destruct (handlers (try_block a (env a))) as [v|s|e].
  - simpl. intros [[= <-]|[]]. lia.
  - specialize (IH (S a)). destruct (attempts env n (S a)) as [r log]. simpl in *.
    intros [[= <-]|[H|H]]; [lia | discriminate H | apply IH in H; lia].
  - simpl. intros [[= <-]|[]]. lia.
Qed.

(** No outcome an interrupt: the loop returns. *)
Lemma attempts_return n a :
  (forall k, a <= k < a + n -> env k <> Fails KeyboardInterrupt) ->
  exists v, fst (attempts env n a) = Returns v.
Proof.
  revert a. induction n as [|n IH]; intros a H; simpl; [eauto|].
  destruct (handlers (try_block a (env a))) as [v|s|e] eqn:E.
  - simpl. eauto.
  - destruct (IH (S a)) as [v Hv]; [intros k Hk; apply H; lia|].
    destruct (attempts env n (S a)) as [r log]. simpl in *. eauto.
  - apply handlers_raise in E. exfalso. apply (H a); [lia | exact E].
Qed.

(** The attempt that the loop returns on decides the result and is the
    last one. *)
Lemma attempts_settle n a k v :
  requested k (snd (attempts env n a)) ->
  handlers (try_block k (env k)) = Return v ->
  fst (attempts env n a) = Returns v /\
  (forall j, requested j (snd (attempts env n a)) -> j <= k).
Proof.
  revert a. induction n as [|n IH]; intros a; simpl; [intros []|].
  destruct (handlers (try_block a (env a))) as [v'|s|e] eqn:E.
  - simpl. intros [[= <-]|[]] Hk. rewrite E in Hk. injection Hk as ->.
    split; [reflexivity|]. intros j [[= <-]|[]]. lia.
  - specialize (IH (S a)). pose proof (requested_from n (S a)) as Hr.
    destruct (attempts env n (S a)) as [r log]. simpl in *.
    intros [[= <-]|[H|H]] Hk; [congruence | discriminate H |].
    destruct (IH H Hk) as [-> Hj]. split; [reflexivity|].
    intros j [[= <-]|[Hq|Hq]]; [apply Hr in H; lia | discriminate Hq | now apply Hj].
  - simpl. intros [[= <-]|[]] Hk. congruence.
Qed.

(** No attempt settles and none is interrupted: all are made, and the
    loop returns [None]. *)
Lemma attempts_exhaust n a :
  (forall k, a <= k < a + n -> exists s, handlers (try_block k (env k)) = Next s) ->
  fst (attempts env n a) = Returns None /\ requests (snd (attempts env n a)) = n.
Proof.
  revert a. induction n as [|n IH]; intros a H; simpl; [auto|].
  destruct (H a) as [s ->]; [lia|].
  destruct (IH (S a)) as [Hr Hn]; [intros k Hk; apply H; lia|].
  destruct (attempts env n (S a)) as [r log]. simpl in *. now subst.
Qed.

(** An attempt that meets a 429 is followed by a pause of five seconds
    times its number, counted from one. *)
Lemma attempts_backoff n a k d :
  requested k (snd (attempts env n a)) ->
  env k = Responds 429%Z d ->
  exists l1 l2,
    snd (attempts env n a) = (l1 ++ Request k :: Sleep ((k + 1) * 5) :: l2)%list.
Proof.
  revert a. induction n as [|n IH]; intros a; simpl; [intros []|].
  destruct (handlers (try_block a (env a))) as [v|s|e] eqn:E.
  - simpl. intros [[= <-]|[]] Hk. rewrite Hk in E. discriminate E.
  - specialize (IH (S a)).
    destruct (attempts env n (S a)) as [r log]. simpl in *.
    intros [[= <-]|[H|H]] Hk; [| discriminate H |].
    + rewrite Hk in E. injection E as <-. exists [], log. reflexivity.
    + destruct (IH H Hk) as (l1 & l2 & ->).
      exists (Request a :: Sleep s :: l1), l2. reflexivity.
  - simpl. intros [[= <-]|[]] Hk. rewrite Hk in E. discriminate E.
Qed.

Lemma handlers_next a (o : outcome Body) :
  settles o = false -> o <> Fails KeyboardInterrupt ->
  exists s, handlers (try_block a o) = Next s.
Proof.
  destruct o as [s [b|]|[]]; simpl; intros Hs Hi;
    try (apply orb_false_elim in Hs as [Hs1 Hs2]); rewrite ?Hs, ?Hs1, ?Hs2;
    try (destruct (s =? 200)%Z); try (destruct (s =? 429)%Z); simpl; eauto.
  congruence.
Qed.

(** An attempt within the budget is made when no attempt before it
    settles or is interrupted. *)
Lemma attempts_reach n a k :
  a <= k < a + n ->
  (forall j, a <= j < k -> settles (env j) = false /\ env j <> Fails KeyboardInterrupt) ->
  requested k (snd (attempts env n a)).
Proof.
  unfold requested. revert a. induction n as [|n IH]; intros a Hk H; [lia|].
  simpl. destruct (Nat.eq_dec a k) as [->|Hne].
  - destruct (handlers (try_block k (env k))) as [v|s|e]; try (simpl; now left).
    destruct (attempts env n (S k)) as [r log]. simpl. now left.
  - destruct (H a) as [Hs Hi]; [lia|].
    destruct (handlers_next a (env a) Hs Hi) as [s ->].
    specialize (IH (S a)). destruct (attempts env n (S a)) as [r log]. simpl in *.
    right. right. apply IH; [lia|]. intros j Hj. apply H. lia.
Qed.

End FetcherFacts.

(** C5: whatever the attempts meet, short of an interrupt,
    [make_request] returns; an attempt that meets a 404 makes it return
    [None] and is the last attempt made; and when no attempt of the
    [retry] ones meets a decodable 200 or a 404, all are made and it
    returns [None]. *)
Theorem make_request_never_raises {Body : Type}
    (retry : nat) (env : nat -> outcome Body) :
  (forall k, k < retry -> env k <> Fails KeyboardInterrupt) ->
  (exists v, fst (make_request retry env) = Returns v) /\
  (forall k d,
      requested k (snd (make_request retry env)) ->
      env k = Responds 404%Z d ->
      fst (make_request retry env) = Returns None /\
      (forall j, requested j (snd (make_request retry env)) -> j <= k)) /\
  ((forall k, k < retry -> settles (env k) = false) ->
   fst (make_request retry env) = Returns None /\
   requests (snd (make_request retry env)) = retry).
Proof.
  intros Hi. unfold make_request. repeat split.
  - apply attempts_return. intros k Hk. apply Hi. lia.
  - eapply attempts_settle; eauto. rewrite H0. reflexivity.
  - eapply attempts_settle; eauto. rewrite H0. reflexivity.
  - apply attempts_exhaust. intros k Hk.
    apply handlers_next; [apply H | apply Hi]; lia.
  - apply attempts_exhaust. intros k Hk.
    apply handlers_next; [apply H | apply Hi]; lia.
Qed.

Lemma make_request_never_raises_witness :
  fst (make_request RETRY_COUNT env_500_timeout_404) = Returns None /\
  snd (make_request RETRY_COUNT env_500_timeout_404) =
    [Request 0; Sleep 1; Request 1; Sleep 2; Request 2].
Proof.
  split; [|reflexivity].
  assert (Hi : forall k, k < RETRY_COUNT ->
                         env_500_timeout_404 k <> Fails KeyboardInterrupt)
    by (intros [|[|k]] _; discriminate).
  destruct (make_request_never_raises RETRY_COUNT env_500_timeout_404 Hi)
    as (_ & H404 & _).
  destruct (H404 2 (Some "Not Found")) as [E _];
    [unfold requested; simpl; intuition | reflexivity | exact E].
Defined.

(** C9, as stated, fails: a 404 between the 429 and the 200 ends the
    loop, so the attempt that would meet the 200, the third of three, is
    never made and [make_request] returns [None]. *)
Lemma make_request_429_404_200_returns_none :
  env_429_404_200 0 = Responds 429%Z None /\
  env_429_404_200 2 = Responds 200%Z (Some "{}") /\
  2 < RETRY_COUNT /\
  make_request RETRY_COUNT env_429_404_200 =
    (Returns None, [Request 0; Sleep 5; Request 1]) /\
  fst (make_request RETRY_COUNT env_429_404_200) <> Returns (Some "{}").
Proof.
  repeat split; try reflexivity; [unfold RETRY_COUNT; lia | discriminate].
Qed.

(** C9: the first attempt meets a 429 and a later attempt [k] of the
    budget a 200 whose body decodes to [b], and no attempt before [k]
    meets a 404, a 200 that decodes or an interrupt.  Then the attempt
    [k] is made and is the last, and [make_request] returns [b], as it
    does, with no pause, when the first attempt meets that 200; every
    attempt that met a 429 is followed by a pause of five seconds times
    the number of the attempt, counted from one, so the first pause is
    of five seconds. *)
Theorem make_request_429_then_200 {Body : Type}
    (retry : nat) (env : nat -> outcome Body) (k : nat) (d : option Body) (b : Body) :
  env 0 = Responds 429%Z d ->
  0 < k -> k < retry ->
  env k = Responds 200%Z (Some b) ->
  (forall j, j < k -> settles (env j) = false /\ env j <> Fails KeyboardInterrupt) ->
  fst (make_request retry env) = Returns (Some b) /\
  (forall env' : nat -> outcome Body,
      env' 0 = Responds 200%Z (Some b) ->
      make_request retry env' = (Returns (Some b), [Request 0])) /\
  (forall j, requested j (snd (make_request retry env)) <-> j <= k) /\
  (forall j dj,
      j < k ->
      env j = Responds 429%Z dj ->
      exists l1 l2,
        snd (make_request retry env) =
        (l1 ++ Request j :: Sleep ((j + 1) * 5) :: l2)%list) /\
  (exists l, snd (make_request retry env) = Request 0 :: Sleep 5 :: l) /\
  5 <= slept (snd (make_request retry env)).
Proof.
  intros H0 Hk Hlt H200 Hpre. unfold make_request in *.
  assert (Hreach : forall j, j <= k -> requested j (snd (attempts env retry 0))).
  { intros j Hj. apply attempts_reach; [lia|]. intros i Hi. apply Hpre. lia. }
  assert (Hset : handlers (try_block k (env k)) = Return (Some b))
    by (rewrite H200; reflexivity).
  destruct (attempts_settle env retry 0 k (Some b) (Hreach k (le_n k)) Hset) as [Hr Hlast].
  destruct retry as [|n]; [lia|].
  split; [exact Hr|]. split; [|split; [|split; [|split]]].
  - intros env' E. simpl. rewrite E. reflexivity.
  - intros j. split; [apply Hlast | apply Hreach].
  - intros j dj Hj Ej. eapply attempts_backoff; [apply Hreach; lia | exact Ej].
  - simpl. rewrite H0. simpl.
    destruct (attempts env n 1) as [r log]. exists log. reflexivity.
  - simpl. rewrite H0. simpl.
    destruct (attempts env n 1) as [r log]. simpl. lia.
Qed.

Lemma make_request_429_then_200_witness :
  fst (make_request RETRY_COUNT env_429_429_200) = Returns (Some "{}") /\
  snd (make_request RETRY_COUNT env_429_429_200) =
    [Request 0; Sleep 5; Request 1; Sleep 10; Request 2].
Proof.
  split; [|reflexivity].
  destruct (make_request_429_then_200 RETRY_COUNT env_429_429_200 2 None "{}")
    as [E _];
    [reflexivity | lia | unfold RETRY_COUNT; lia | reflexivity | | exact E].
  intros [|[|j]] Hj; [split; [reflexivity | discriminate]..|lia].
Defined.

(** ** The OpenAlex pagination loop *)

Import Records OpenAlex.

Section OpenAlexFacts.
Variable source : nat -> string -> reply.

(** With the pages left up to the cap as fuel, the loop ends, having
    counted and requested no more than [max_pages] pages. *)
Lemma while_terminates fuel st :
  List.length (sent st) = page_count st ->
  page_count st <= max_pages ->
  max_pages - page_count st <= fuel ->
  exists st',
    while source fuel st = Some st' /\
    page_count st' <= max_pages /\
    List.length (sent st') <= max_pages.
Proof.
  revert st. induction fuel as [|fuel IH]; intros st Hs Hle Hf.
  - exists st. simpl. unfold loop_test.
    destruct (cursor st) as [c|]; [|repeat split; [assumption | lia]].
    replace (page_count st <? max_pages) with false
      by (symmetry; apply Nat.ltb_ge; lia).
    rewrite andb_false_r. simpl. repeat split; [assumption | lia].
  - simpl. destruct (loop_test st) eqn:Ht; simpl.
    2:{ exists st. repeat split; [assumption | lia]. }
    unfold loop_test in Ht. unfold loop_body.
    destruct (cursor st) as [c|] eqn:Ec; [|discriminate].
    apply andb_true_iff in Ht as [_ Hlt]. apply Nat.ltb_lt in Hlt.
    cbn [citations cursor page_count sent].
    destruct (source (page_count st) c) as [|results m].
    + eexists. split; [reflexivity|]. cbn [page_count sent].
      rewrite length_app. cbn [Datatypes.length]. split; lia.
    + destruct (add_results results (citations st)) as [cs [|]].
      * destruct m as [next|].
        -- apply IH; cbn [page_count sent]; rewrite ?length_app; cbn [Datatypes.length]; lia.
        -- eexists. split; [reflexivity|]. cbn [page_count sent].
           rewrite length_app. cbn [Datatypes.length]. split; lia.
      * eexists. split; [reflexivity|]. cbn [page_count sent].
        rewrite length_app. cbn [Datatypes.length]. split; lia.
Qed.

Lemma add_results_works ws cs : snd (add_results (map Work ws) cs) = true.
Proof.
  revert cs. induction ws as [|w ws IH]; intros cs; simpl; [reflexivity|].
  destruct (citation_of w); apply IH.
Qed.

Lemma while_endless fuel st c :
  endless source ->
  cursor st = Some c -> nonempty c = true ->
  List.length (sent st) = page_count st ->
  page_count st <= max_pages ->
  max_pages - page_count st <= fuel ->
  exists st',
    while source fuel st = Some st' /\
    page_count st' = max_pages /\
    List.length (sent st') = max_pages.
Proof.
  intros He. revert st c. induction fuel as [|fuel IH]; intros st c Ec Hc Hs Hle Hf.
  - exists st. simpl. unfold loop_test. rewrite Ec, Hc.
    replace (page_count st <? max_pages) with false
      by (symmetry; apply Nat.ltb_ge; lia).
    simpl. split; [reflexivity | lia].
  - simpl. unfold loop_test. rewrite Ec, Hc. cbn [andb].
    destruct (page_count st <? max_pages) eqn:Hlt; cbn [negb].
    2:{ apply Nat.ltb_ge in Hlt. exists st. split; [reflexivity | lia]. }
    apply Nat.ltb_lt in Hlt. unfold loop_body. rewrite Ec.
    cbn [citations cursor page_count sent].
    destruct (He (page_count st) c) as (ws & next & -> & Hn).
    pose proof (add_results_works ws (citations st)) as Hw.
    destruct (add_results (map Work ws) (citations st)) as [cs ok].
    simpl in Hw. subst ok.
    apply (IH _ next); cbn [cursor page_count sent]; rewrite ?length_app; cbn [Datatypes.length];
      solve [reflexivity | assumption | lia].
Qed.

End OpenAlexFacts.

(** C7: whatever the source answers, the pagination loop ends once it is
    given the [max_pages] = 50 passes of the cap: it has then counted,
    and requested, at most 50 pages, and the adapter returns.  Against a
    source that answers every request with a page and a cursor it stops
    after exactly 50 pages. *)
Theorem openalex_pagination_stops_at_cap
    (source : nat -> string -> reply) (work_data : option found) (fuel : nat) :
  max_pages <= fuel ->
  (exists st,
      while source fuel start = Some st /\
      page_count st <= 50 /\
      List.length (sent st) <= 50 /\
      (endless source -> page_count st = 50 /\ List.length (sent st) = 50)) /\
  (exists cs, get_citations_from_openalex source work_data fuel = Some cs).
Proof.
  intros Hf.
  assert (H0 : page_count start <= max_pages) by (unfold max_pages; simpl; lia).
  assert (H1 : max_pages - page_count start <= fuel)
    by (unfold max_pages in *; simpl; lia).
  destruct (while_terminates source fuel start eq_refl H0 H1) as (st & Hw & Hp & Hs).
  split.
  - exists st. split; [exact Hw|]. split; [exact Hp|]. split; [exact Hs|].
    intros He.
    destruct (while_endless source fuel start "*" He eq_refl eq_refl eq_refl H0 H1)
      as (st' & Hw' & Hp' & Hs').
    rewrite Hw in Hw'. injection Hw' as <-. split; assumption.
  - unfold get_citations_from_openalex.
    destruct work_data as [[n|]|]; [|eauto|eauto].
    destruct (n =? 0)%Z; [eauto|]. rewrite Hw. simpl. eauto.
Qed.

Lemma openalex_pagination_stops_at_cap_witness :
  exists st,
    while source_always_next 50 start = Some st /\
    page_count st = 50 /\ List.length (sent st) = 50.
Proof.
  destruct (openalex_pagination_stops_at_cap source_always_next (Some (Found 7%Z)) 50)
    as [(st & Hw & _ & _ & He) _]; [unfold max_pages; lia|].
  exists st. split; [exact Hw|]. apply He.
  intros n c. exists [], "next". split; reflexivity.
Defined.

(** ** The insertion-ordered dictionary *)

Section DictFacts.
Context {V : Type}.
Implicit Types (m : OrderedDict.t V) (k : string) (v : V).

Lemma get_set_same m k v : OrderedDict.get (OrderedDict.set m k v) k = Some v.
Proof.
  induction m as [|[k' v'] m IH]; simpl.
  - now rewrite String.eqb_refl.
  - destruct (String.eqb k' k) eqn:E; simpl; rewrite E; [reflexivity | exact IH].
Qed.

Lemma get_set_other m k k' v :
  k <> k' -> OrderedDict.get (OrderedDict.set m k v) k' = OrderedDict.get m k'.
Proof.
  intros Hk. apply String.eqb_neq in Hk.
  induction m as [|[k0 v0] m IH]; simpl.
  - now rewrite Hk.
  - destruct (String.eqb k0 k) eqn:E; simpl.
    + apply String.eqb_eq in E. subst k0. now rewrite Hk.
    + now rewrite IH.
Qed.

Lemma get_in_keys m k :
  In k (OrderedDict.keys m) <-> exists v, OrderedDict.get m k = Some v.
Proof.
  unfold OrderedDict.keys. induction m as [|[k' v'] m IH]; simpl.
  - split; [intros [] | intros [v H]; discriminate].
  - destruct (String.eqb k' k) eqn:E.
    + apply String.eqb_eq in E. split; eauto.
    + apply String.eqb_neq in E. rewrite <- IH. tauto.
Qed.

Lemma get_none_set m k v :
  OrderedDict.get m k = None -> OrderedDict.set m k v = (m ++ [(k, v)])%list.
Proof.
  induction m as [|[k' v'] m IH]; simpl; [reflexivity|].
  destruct (String.eqb k' k); [discriminate|]. intros H. now rewrite IH.
Qed.

Lemma keys_set_present m k v v0 :
  OrderedDict.get m k = Some v0 ->
  OrderedDict.keys (OrderedDict.set m k v) = OrderedDict.keys m.
Proof.
  unfold OrderedDict.keys. induction m as [|[k' v'] m IH]; simpl; [discriminate|].
  destruct (String.eqb k' k); simpl; [reflexivity|]. intros H. now rewrite IH.
Qed.

Lemma in_keys_set m k v k' :
  In k' (OrderedDict.keys (OrderedDict.set m k v)) <-> k' = k \/ In k' (OrderedDict.keys m).
Proof.
  destruct (OrderedDict.get m k) as [v0|] eqn:E.
  - rewrite (keys_set_present _ _ _ _ E). split; [tauto|].
    intros [->|H]; [|exact H]. apply get_in_keys. eauto.
  - rewrite (get_none_set _ _ _ E). unfold OrderedDict.keys.
    rewrite map_app, in_app_iff. simpl. intuition.
Qed.

End DictFacts.

(** ** The loop of [main] *)

Import Orchestrator.

Section OrchestratorFacts.
Variable process : nat -> string -> outcome.

Lemma loop_get_other i l results d :
  ~ In d l ->
  OrderedDict.get (loop process i l results) d = OrderedDict.get results d.
Proof.
  revert i results. induction l as [|e l IH]; intros i results Hd; simpl; [reflexivity|].
  assert (e <> d /\ ~ In d l) as [Hne Hl] by (simpl in Hd; tauto).
  destruct (process i e); rewrite ?IH by exact Hl; try reflexivity;
    now apply get_set_other.
Qed.

Lemma loop_keys i l results d :
  In d (OrderedDict.keys (loop process i l results)) <->
  In d (OrderedDict.keys results) \/ In d (processed process i l).
Proof.
  revert i results. induction l as [|e l IH]; intros i results; simpl; [tauto|].
  destruct (process i e); simpl; rewrite ?IH, ?in_keys_set; intuition.
Qed.

(** Up to the first interrupt the loop runs pass after pass. *)
Lemma loop_app i pre rest results :
  processed process i pre = pre ->
  loop process i (pre ++ rest) results =
  loop process (i + List.length pre) rest (loop process i pre results).
Proof.
  revert i results. induction pre as [|e pre IH]; intros i results; simpl.
  - intros _. now rewrite Nat.add_0_r.
  - destruct (process i e); intros H; try discriminate H;
      injection H as H; rewrite IH by exact H; f_equal; lia.
Qed.

Lemma processed_app i pre d :
  processed process i (pre ++ [d]) = (pre ++ [d])%list ->
  processed process i pre = pre /\
  process (i + List.length pre) d <> RaisesKeyboardInterrupt.
Proof.
  revert i. induction pre as [|e pre IH]; intros i; simpl.
  - rewrite Nat.add_0_r. destruct (process i d); [split; congruence | split; congruence | discriminate].
  - destruct (process i e); intros H; try discriminate H;
      injection H as H; destruct (IH _ H) as [-> Hd];
      (split; [reflexivity|]); replace (i + S (List.length pre)) with (S i + List.length pre) by lia;
      exact Hd.
Qed.

End OrchestratorFacts.

(** C8: a pass that raises an exception stores the empty list for its
    identifier and the loop goes on with the next one; the identifiers
    with an entry in the result mapping are those of the passes that
    were not interrupted; and an identifier whose pass was reached and
    not interrupted, and which does not come again later, is mapped to
    what its pass returned, be it empty, or to the empty list when the
    pass raised. *)
Theorem main_loop_records_every_identifier
    (process : nat -> string -> outcome) (unique_dois : list string) :
  (forall i d rest results,
      process i d = RaisesException ->
      loop process i (d :: rest) results =
      loop process (S i) rest (OrderedDict.set results d [])) /\
  (forall d,
      In d (processed process 1 unique_dois) <->
      exists citations, OrderedDict.get (main_loop process unique_dois) d = Some citations) /\
  (forall pre d post,
      unique_dois = (pre ++ d :: post)%list ->
      processed process 1 (pre ++ [d]) = (pre ++ [d])%list ->
      ~ In d post ->
      OrderedDict.get (main_loop process unique_dois) d =
      Some (stored (process (1 + List.length pre) d))).
Proof.
  split; [|split].
  - intros i d rest results H. simpl. now rewrite H.
  - intros d. rewrite <- get_in_keys. unfold main_loop.
    rewrite loop_keys. simpl. tauto.
  - intros pre d post -> Hp Hd. unfold main_loop.
    apply processed_app in Hp as [Hpre Hi].
    rewrite loop_app by exact Hpre. cbn [loop].
    destruct (process (1 + List.length pre) d) eqn:E; [| |congruence];
      rewrite loop_get_other by exact Hd; apply get_set_same.
Qed.

Lemma main_loop_records_every_identifier_witness :
  OrderedDict.get
    (main_loop process_example ["10.1000/a"; "10.1000/b"; "10.1000/c"]) "10.1000/b" =
  Some [] /\
  main_loop process_example ["10.1000/a"; "10.1000/b"; "10.1000/c"] =
  [("10.1000/a", []); ("10.1000/b", []); ("10.1000/c", [4; 5])].
Proof.
  split; [|reflexivity].
  destruct (main_loop_records_every_identifier process_example
              ["10.1000/a"; "10.1000/b"; "10.1000/c"]) as (_ & _ & H).
  apply (H ["10.1000/a"] "10.1000/b" ["10.1000/c"]); [reflexivity | reflexivity |].
  simpl. intros [E|[]]. discriminate E.
Defined.

(** ** The merge *)

Import Merge.

Lemma store_same h l r : store h l r l = r.
Proof. unfold store. now rewrite Nat.eqb_refl. Qed.

Lemma store_other h l r l' : l' <> l -> store h l r l' = h l'.
Proof. unfold store. intros H. apply Nat.eqb_neq in H. now rewrite H. Qed.

Lemma merged_record_self r : merged_record r r = r.
Proof.
  destruct r as [d t a y s]. unfold merged_record. simpl.
  now rewrite !andb_negb_l.
Qed.

Lemma guarded_store_at (b : bool) h l r :
  (if b then store h l r else h) l = if b then r else h l.
Proof. destruct b; [apply store_same | reflexivity]. Qed.

Lemma guarded_store_other (b : bool) h l r l' :
  l' <> l -> (if b then store h l r else h) l' = h l'.
Proof. intros H. destruct b; [now apply store_other | reflexivity]. Qed.

Ltac split_fields :=
  repeat (match goal with
          | |- context [has_title ?t] => is_var t; destruct (has_title t)
          | |- context [has_authors ?a] => is_var a; destruct (has_authors a)
          | |- context [has_year ?y] => is_var y; destruct (has_year y)
          end; cbn).

Lemma backfill_other h e c l : l <> e -> backfill h e c l = h l.
Proof.
  intros H. unfold backfill. cbv zeta.
  now rewrite !(guarded_store_other _ _ _ _ l H).
Qed.

Lemma backfill_at h e c : backfill h e c e = merged_record (h e) (h c).
Proof.
  destruct (Nat.eq_dec c e) as [->|Hne].
  - rewrite merged_record_self. unfold backfill. cbv zeta.
    repeat rewrite guarded_store_at.
    destruct (h e) as [d t a y s]. cbn. split_fields; reflexivity.
  - unfold backfill, merged_record. cbv zeta.
    repeat (rewrite guarded_store_at || rewrite (guarded_store_other _ _ _ _ c Hne)).
    destruct (h e) as [d t a y s], (h c) as [d' t' a' y' s']. cbn.
    split_fields; reflexivity.
Qed.

Lemma has_key_get {V : Type} (m : OrderedDict.t V) k :
  OrderedDict.has_key m k = match OrderedDict.get m k with Some _ => true | None => false end.
Proof.
  unfold OrderedDict.has_key, OrderedDict.keys. induction m as [|[k' v] m IH]; simpl; [reflexivity|].
  destruct (String.eqb k' k); [reflexivity | exact IH].
Qed.

Lemma has_key_app {V : Type} (m : OrderedDict.t V) k v k' :
  OrderedDict.has_key (m ++ [(k, v)])%list k' = OrderedDict.has_key m k' || String.eqb k k'.
Proof.
  unfold OrderedDict.has_key, OrderedDict.keys. rewrite map_app, existsb_app. simpl.
  now rewrite orb_false_r.
Qed.

Lemma doi_merged_record r r' : doi (merged_record r r') = doi r.
Proof. reflexivity. Qed.

Lemma doi_backfill h e c l : doi (backfill h e c l) = doi (h l).
Proof.
  destruct (Nat.eq_dec l e) as [->|H].
  - now rewrite backfill_at.
  - now rewrite backfill_other.
Qed.

Lemma first_by_doi_ext h1 h2 cs :
  (forall l, doi (h1 l) = doi (h2 l)) -> first_by_doi h1 cs = first_by_doi h2 cs.
Proof.
  intros H. induction cs as [|c cs IH]; simpl; [reflexivity|].
  rewrite IH. f_equal. apply filter_ext. intros x. now rewrite !H.
Qed.

Lemma filter_filter {A : Type} (f g : A -> bool) l :
  filter f (filter g l) = filter (fun x => g x && f x) l.
Proof.
  induction l as [|x l IH]; simpl; [reflexivity|].
  destruct (g x); simpl; [destruct (f x)|]; now rewrite IH.
Qed.

(** The references the dictionary ends with: those it had, then the
    first of each doi that it did not have. *)
Lemma add_to_merged_values cs m h :
  OrderedDict.values (fst (add_to_merged (m, h) cs)) =
  (OrderedDict.values m ++
   filter (fun c => negb (OrderedDict.has_key m (doi (h c)))) (first_by_doi h cs))%list.
Proof.
  unfold add_to_merged. revert m h.
  induction cs as [|c cs IH]; intros m h; simpl.
  - now rewrite app_nil_r.
  - rewrite (has_key_get m (doi (h c))).
    destruct (OrderedDict.get m (doi (h c))) as [e|] eqn:E; simpl.
    + rewrite IH. f_equal.
      rewrite (first_by_doi_ext _ h) by apply doi_backfill.
      rewrite filter_filter. apply filter_ext_in. intros x _.
      rewrite doi_backfill.
      destruct (String.eqb (doi (h x)) (doi (h c))) eqn:Ex; simpl; [|reflexivity].
      apply String.eqb_eq in Ex. rewrite Ex, has_key_get, E. reflexivity.
    + rewrite (get_none_set _ _ _ E), IH. unfold OrderedDict.values.
      rewrite map_app, <- app_assoc. simpl. do 2 f_equal.
      rewrite filter_filter. apply filter_ext. intros x.
      rewrite has_key_app, negb_orb, andb_comm. f_equal. f_equal.
      apply String.eqb_sym.
Qed.

Lemma map_filter_doi (f : loc -> string) (g : string -> bool) l :
  map f (filter (fun x => g (f x)) l) = filter g (map f l).
Proof.
  induction l as [|x l IH]; simpl; [reflexivity|].
  destruct (g (f x)); simpl; now rewrite IH.
Qed.

Lemma first_by_doi_dois h cs :
  map (fun l => doi (h l)) (first_by_doi h cs) = first_seen (map (fun l => doi (h l)) cs).
Proof.
  induction cs as [|c cs IH]; simpl; [reflexivity|].
  f_equal. rewrite <- IH.
  apply (map_filter_doi (fun l => doi (h l)) (fun x => negb (String.eqb x (doi (h c))))).
Qed.

(** A record is kept when no record before it has its doi. *)
Lemma first_by_doi_in h cs l :
  In l (first_by_doi h cs) <->
  exists pre post,
    cs = (pre ++ l :: post)%list /\ forall x, In x pre -> doi (h x) <> doi (h l).
Proof.
  induction cs as [|c cs IH]; simpl.
  - split; [intros [] | intros ([|? ?] & post & E & _); discriminate E].
  - rewrite filter_In, IH, negb_true_iff, String.eqb_neq. split.
    + intros [->|[(pre & post & -> & Hp) Hc]].
      * exists [], cs. split; [reflexivity | intros x []].
      * exists (c :: pre), post. split; [reflexivity|].
        intros x [<-|Hx]; [congruence | now apply Hp].
    + intros ([|c' pre] & post & E & Hp); injection E as Ec Ecs; [now left|].
      subst c' cs. right. split.
      * exists pre, post. split; [reflexivity|]. intros x Hx. apply Hp. now right.
      * intros E. apply (Hp c); [now left | congruence].
Qed.

Lemma first_seen_nodup ds : NoDup (first_seen ds).
Proof.
  induction ds as [|d ds IH]; simpl; constructor.
  - rewrite filter_In. intros [_ H]. now rewrite String.eqb_refl in H.
  - now apply NoDup_filter.
Qed.

Lemma add_to_merged_app st xs ys :
  add_to_merged (add_to_merged st xs) ys = add_to_merged st (xs ++ ys)%list.
Proof. unfold add_to_merged. now rewrite fold_left_app. Qed.

Lemma add_to_merged_doi cs m h l :
  doi (snd (add_to_merged (m, h) cs) l) = doi (h l).
Proof.
  unfold add_to_merged. revert m h.
  induction cs as [|c cs IH]; intros m h; simpl; [reflexivity|].
  destruct (OrderedDict.get m (doi (h c))); rewrite IH; [apply doi_backfill | reflexivity].
Qed.

Lemma merge_citations_eq h xs ys :
  merge_citations h xs ys =
  (OrderedDict.values (fst (add_to_merged (OrderedDict.empty, h) (xs ++ ys)%list)),
   snd (add_to_merged (OrderedDict.empty, h) (xs ++ ys)%list)).
Proof. unfold merge_citations. now rewrite add_to_merged_app. Qed.

Lemma filter_all {A : Type} (l : list A) : filter (fun _ => true) l = l.
Proof. induction l as [|x l IH]; simpl; congruence. Qed.

Lemma merge_citations_out h xs ys :
  fst (merge_citations h xs ys) = first_by_doi h (xs ++ ys)%list.
Proof.
  rewrite merge_citations_eq. cbn [fst].
  rewrite add_to_merged_values. simpl. apply filter_all.
Qed.

(** C2: the list [merge_citations] returns holds, in the order of the
    OpenAlex list followed by the OpenCitations list, the first record
    of each doi: a record is in it when no record before it in that
    order has its doi.  No two of its records have the same doi. *)
Theorem merge_citations_unique_in_first_insertion_order
    (h : heap) (openalex_citations opencitations_citations : list loc) :
  let every := (openalex_citations ++ opencitations_citations)%list in
  let out := fst (merge_citations h openalex_citations opencitations_citations) in
  let h' := snd (merge_citations h openalex_citations opencitations_citations) in
  out = first_by_doi h every /\
  (forall l,
      In l out <->
      exists pre post,
        every = (pre ++ l :: post)%list /\
        forall x, In x pre -> doi (h x) <> doi (h l)) /\
  map (fun l => doi (h' l)) out = first_seen (map (fun l => doi (h l)) every) /\
  NoDup (map (fun l => doi (h' l)) out).
Proof.
  cbv zeta.
  assert (Hd : forall l,
             doi (snd (merge_citations h openalex_citations opencitations_citations) l) =
             doi (h l)).
  { intros l. rewrite merge_citations_eq. apply add_to_merged_doi. }
  assert (Hm : map (fun l => doi (snd (merge_citations h openalex_citations
                                          opencitations_citations) l))
                   (fst (merge_citations h openalex_citations opencitations_citations)) =
               first_seen (map (fun l => doi (h l))
                             (openalex_citations ++ opencitations_citations)%list)).
  { rewrite (map_ext _ (fun l => doi (h l)) Hd), merge_citations_out.
    apply first_by_doi_dois. }
  split; [apply merge_citations_out|].
  split; [intros l; rewrite merge_citations_out; apply first_by_doi_in|].
  split; [exact Hm|].
  rewrite Hm. apply first_seen_nodup.
Qed.

(** The merge keeps its invariant. *)
Section MergeInvariant.
Variable h0 : heap.
Variable every : list loc.

Lemma merge_inv_start : merge_inv h0 every OrderedDict.empty h0.
Proof.
  constructor; try (intros l; left; reflexivity); auto.
  - intros k e [].
  - constructor.
Qed.

Lemma get_in {V : Type} (m : OrderedDict.t V) k v :
  OrderedDict.get m k = Some v -> In (k, v) m.
Proof.
  induction m as [|[k' v'] m IH]; simpl; [discriminate|].
  destruct (String.eqb k' k) eqn:E.
  - apply String.eqb_eq in E. intros [= ->]. subst. now left.
  - intros H. right. now apply IH.
Qed.

Lemma in_nodup_keys {V : Type} (m : OrderedDict.t V) k v v' :
  NoDup (OrderedDict.keys m) -> In (k, v) m -> In (k, v') m -> v = v'.
Proof.
  unfold OrderedDict.keys. induction m as [|[k0 v0] m IH]; simpl; [intros _ []|].
  intros Hn. inversion Hn as [|? ? Hk Hn']; subst.
  intros [E|H] [E'|H'].
  - congruence.
  - injection E as -> ->. exfalso. apply Hk. apply (in_map fst _ _ H').
  - injection E' as -> ->. exfalso. apply Hk. apply (in_map fst _ _ H).
  - now apply IH.
Qed.

(** One field through one pass that finds its doi present. *)
Lemma kept_backfill {A : Type} (has : A -> bool) (field : citation -> A) m h e c :
  merge_inv h0 every m h ->
  kept h0 every has field h ->
  In c every ->
  OrderedDict.get m (doi (h c)) = Some e ->
  (forall r r', field (merged_record r r') =
                if negb (has (field r)) && has (field r') then field r' else field r) ->
  kept h0 every has field (backfill h e c).
Proof.
  intros I K Hc Hg Hf l.
  destruct (Nat.eq_dec l e) as [->|Hl]; [|rewrite backfill_other by exact Hl; apply K].
  rewrite backfill_at, Hf.
  destruct (negb (has (field (h e))) && has (field (h c))) eqn:Hb; [|apply K].
  apply andb_true_iff in Hb as [He Hhc]. apply negb_true_iff in He.
  apply get_in in Hg. destruct (inv_entry _ _ _ _ I _ _ Hg) as [Hd _].
  assert (Hce : c <> e) by (intros ->; congruence).
  assert (Hfr : h c = h0 c).
  { apply (inv_frame _ _ _ _ I). unfold OrderedDict.values. intros Hin.
    apply in_map_iff in Hin as ([k c'] & Ec & Hin). simpl in Ec. subst c'.
    destruct (inv_entry _ _ _ _ I _ _ Hin) as [Hk _].
    rewrite <- (inv_doi _ _ _ _ I) in Hk. subst k.
    apply Hce. eapply in_nodup_keys; eauto using inv_nodup. }
  right. split.
  - destruct (K e) as [E|[E _]]; [now rewrite <- E | exact E].
  - exists c. repeat split; auto.
    + rewrite Hd. symmetry. apply (inv_doi _ _ _ _ I).
    + now rewrite <- Hfr.
    + now rewrite Hfr.
Qed.

Lemma merge_inv_add_one m h c :
  merge_inv h0 every m h -> In c every ->
  merge_inv h0 every (fst (add_one (m, h) c)) (snd (add_one (m, h) c)).
Proof.
  intros I Hc. unfold add_one.
  destruct (OrderedDict.get m (doi (h c))) as [e|] eqn:E; cbn [fst snd].
  - constructor.
    + intros l. rewrite doi_backfill. apply (inv_doi _ _ _ _ I).
    + intros l. destruct (Nat.eq_dec l e) as [->|Hl].
      * rewrite backfill_at. apply (inv_source _ _ _ _ I).
      * rewrite backfill_other by exact Hl. apply (inv_source _ _ _ _ I).
    + intros l Hl. rewrite backfill_other; [now apply (inv_frame _ _ _ _ I)|].
      intros ->. apply Hl. apply get_in in E.
      apply (in_map snd _ _ E).
    + apply (inv_entry _ _ _ _ I).
    + apply (inv_nodup _ _ _ _ I).
    + eapply kept_backfill; eauto using inv_title.
    + eapply kept_backfill; eauto using inv_authors.
    + eapply kept_backfill; eauto using inv_year.
  - rewrite (get_none_set _ _ _ E). constructor; try apply I.
    + intros l Hl. apply (inv_frame _ _ _ _ I). intros Hin. apply Hl.
      unfold OrderedDict.values. rewrite map_app, in_app_iff. now left.
    + intros k e Hin. apply in_app_iff in Hin as [Hin|[[= <- <-]|[]]].
      * now apply (inv_entry _ _ _ _ I).
      * split; [symmetry; apply (inv_doi _ _ _ _ I) | exact Hc].
    + unfold OrderedDict.keys. rewrite map_app. simpl.
      apply NoDup_app; [apply (inv_nodup _ _ _ _ I) | repeat constructor; auto |].
      intros k Hk [<-|[]]. apply get_in_keys in Hk as [v Hv]. congruence.
Qed.

Lemma merge_inv_add_to_merged cs m h :
  merge_inv h0 every m h -> incl cs every ->
  merge_inv h0 every (fst (add_to_merged (m, h) cs)) (snd (add_to_merged (m, h) cs)).
Proof.
  unfold add_to_merged. revert m h.
  induction cs as [|c cs IH]; intros m h I Hi; cbn [fold_left]; [exact I|].
  pose proof (merge_inv_add_one m h c I (Hi c (or_introl eq_refl))) as I'.
  destruct (add_one (m, h) c) as [m' h']. apply IH; [exact I'|].
  intros x Hx. apply Hi. now right.
Qed.

End MergeInvariant.

(** C1: [merge_citations] never changes the doi or the source tag of a
    record; a title, an author list or a year that is not empty stays as
    it is, and one that changes was empty and becomes the non-empty one
    of another record of the same doi in the two lists; records outside
    the returned list are not changed at all.  For a pair of records
    with one doi, the first is returned, filled from the second exactly
    where it was empty. *)
Theorem merge_citations_keeps_first_inserted
    (h : heap) (openalex_citations opencitations_citations : list loc) :
  let every := (openalex_citations ++ opencitations_citations)%list in
  let out := fst (merge_citations h openalex_citations opencitations_citations) in
  let h' := snd (merge_citations h openalex_citations opencitations_citations) in
  (forall l, doi (h' l) = doi (h l) /\ source (h' l) = source (h l)) /\
  (forall l,
      (has_title (title (h l)) = true -> title (h' l) = title (h l)) /\
      (has_authors (authors (h l)) = true -> authors (h' l) = authors (h l)) /\
      (has_year (year (h l)) = true -> year (h' l) = year (h l))) /\
  (kept h every has_title title h' /\
   kept h every has_authors authors h' /\
   kept h every has_year year h') /\
  (forall l, ~ In l out -> h' l = h l) /\
  (forall a b,
      openalex_citations = [a] -> opencitations_citations = [b] ->
      doi (h a) = doi (h b) ->
      out = [a] /\ h' a = merged_record (h a) (h b)).
Proof.
  cbv zeta. rewrite merge_citations_eq. cbn [fst snd].
  pose proof (merge_inv_add_to_merged h _
                (openalex_citations ++ opencitations_citations)%list
                OrderedDict.empty h (merge_inv_start h _) (incl_refl _)) as I.
  assert (K : forall (A : Type) (has : A -> bool) (field : citation -> A) h',
             kept h (openalex_citations ++ opencitations_citations)%list has field h' ->
             forall l, has (field (h l)) = true -> field (h' l) = field (h l)).
  { intros A has field h' Hk l Hl. destruct (Hk l) as [E|[E _]]; [exact E | congruence]. }
  split; [|split; [|split; [|split]]].
  - intros l. split; [apply (inv_doi _ _ _ _ I) | apply (inv_source _ _ _ _ I)].
  - intros l. repeat split.
    + apply (K _ has_title title). apply (inv_title _ _ _ _ I).
    + apply (K _ has_authors authors). apply (inv_authors _ _ _ _ I).
    + apply (K _ has_year year). apply (inv_year _ _ _ _ I).
  - repeat split; apply I.
  - apply (inv_frame _ _ _ _ I).
  - intros a b -> -> Hab. unfold add_to_merged. simpl.
    rewrite <- Hab, String.eqb_refl. simpl. split; [reflexivity | apply backfill_at].
Qed.

Lemma merge_citations_keeps_first_inserted_witness :
  fst (merge_citations heap_two_sources [0] [1]) = [0] /\
  snd (merge_citations heap_two_sources [0] [1]) 0 =
    mkCitation "10.1000/a" (Some "X") ["B. Author"] "2020" "OpenAlex".
Proof.
  destruct (merge_citations_keeps_first_inserted heap_two_sources [0] [1])
    as (_ & _ & _ & _ & H).
  destruct (H 0 1 eq_refl eq_refl eq_refl) as [Ho Hr].
  split; [exact Ho | rewrite Hr; reflexivity].
Defined.

(** ** The enrichment stage *)

Import Enrich.

Lemma fill_other h c md l : l <> c -> fill h c md l = h l.
Proof.
  intros H. destruct md as [[t a] y]. unfold fill. cbv zeta.
  now rewrite !(guarded_store_other _ _ _ _ l H).
Qed.

Lemma fill_at h c md : fill h c md c = filled_record (h c) md.
Proof.
  destruct md as [[t a] y]. unfold fill, filled_record. cbv zeta.
  repeat rewrite guarded_store_at.
  destruct (h c) as [d t' a' y' s]. cbn.
  destruct (has_title t), (has_authors a), (has_year y); cbn; split_fields; reflexivity.
Qed.

(** A lookup that failed, or that found nothing, changes no record. *)
Lemma filled_record_nothing r t :
  has_title t = false -> filled_record r (t, [], "") = r.
Proof. intros H. destruct r. unfold filled_record. cbn. now rewrite H. Qed.

Lemma lookups_app l1 l2 : lookups (l1 ++ l2) = (lookups l1 ++ lookups l2)%list.
Proof.
  induction l1 as [|[| |] l1 IH]; simpl; rewrite ?IH; reflexivity.
Qed.

Section EnrichFacts.
Variable crossref : nat -> string -> reply.
Variable progress_callback : bool.

Let pass := enrich_one crossref progress_callback.

(** What one pass does. *)
Lemma enrich_one_spec total i c h log :
  lookups (snd (pass total i c (h, log))) =
    (lookups log ++ (if incomplete (h c) then [doi (h c)] else []))%list /\
  (forall l, l <> c -> fst (pass total i c (h, log)) l = h l) /\
  fst (pass total i c (h, log)) c =
    (if incomplete (h c)
     then filled_record (h c) (get_metadata_from_crossref (crossref i (doi (h c))))
     else h c).
Proof.
  unfold pass, enrich_one.
  destruct (incomplete (h c)); cbn [fst snd].
  - repeat split.
    + destruct progress_callback; rewrite !lookups_app; simpl; now rewrite ?app_nil_r.
    + intros l Hl. now apply fill_other.
    + apply fill_at.
  - repeat split.
    destruct progress_callback; rewrite ?lookups_app; simpl; now rewrite ?app_nil_r.
Qed.

End EnrichFacts.

Section EnrichRun.
Variable crossref : nat -> string -> reply.
Variable progress_callback : bool.

(** Every record is handled by one pass of the body, from the state the
    passes before it leave. *)
Lemma enrich_from_app total i pre post st :
  enrich_from crossref progress_callback total i (pre ++ post) st =
  enrich_from crossref progress_callback total (i + List.length pre) post
    (enrich_from crossref progress_callback total i pre st).
Proof.
  revert i st. induction pre as [|c pre IH]; intros i st; simpl.
  - now rewrite Nat.add_0_r.
  - rewrite IH. f_equal. lia.
Qed.

(** The run over records that are pairwise distinct. *)
Lemma enrich_from_distinct cs total i h log :
  NoDup cs ->
  lookups (snd (enrich_from crossref progress_callback total i cs (h, log))) =
    (lookups log ++ map (fun c => doi (h c)) (filter (fun c => incomplete (h c)) cs))%list /\
  (forall l, ~ In l cs ->
     fst (enrich_from crossref progress_callback total i cs (h, log)) l = h l) /\
  (forall j c, nth_error cs j = Some c ->
     fst (enrich_from crossref progress_callback total i cs (h, log)) c =
     if incomplete (h c)
     then filled_record (h c) (get_metadata_from_crossref (crossref (i + j) (doi (h c))))
     else h c).
Proof.
  revert i h log. induction cs as [|c cs IH]; intros i h log Hn.
  - simpl. rewrite app_nil_r. repeat split. intros [|j] c; discriminate.
  - inversion Hn as [|? ? Hc Hn']; subst. cbn [enrich_from].
    destruct (enrich_one_spec crossref progress_callback total i c h log)
      as (Hl & Ho & Ha).
    destruct (enrich_one crossref progress_callback total i c (h, log))
      as [h1 log1]. cbn [fst snd] in *.
    destruct (IH (S i) h1 log1 Hn') as (IHl & IHo & IHa).
    assert (Hcs : forall x, In x cs -> h1 x = h x)
      by (intros x Hx; apply Ho; intros ->; contradiction).
    repeat split.
    + rewrite IHl, Hl, <- app_assoc. f_equal.
      rewrite (filter_ext_in (fun x => incomplete (h1 x)) (fun x => incomplete (h x)))
        by (intros x Hx; now rewrite Hcs).
      rewrite (map_ext_in (fun x => doi (h1 x)) (fun x => doi (h x)))
        by (intros x Hx; apply filter_In in Hx as [Hx _]; now rewrite Hcs).
      simpl. destruct (incomplete (h c)); reflexivity.
    + intros l Hl'. rewrite IHo by (intros Hx; apply Hl'; now right).
      apply Ho. intros ->. apply Hl'. now left.
    + intros [|j] x Hx; simpl in Hx.
      * injection Hx as <-. rewrite IHo by exact Hc. rewrite Ha.
        now rewrite Nat.add_0_r.
      * rewrite (IHa j x Hx). apply nth_error_In in Hx.
        rewrite Hcs by exact Hx. now replace (S i + j) with (i + S j) by lia.
Qed.

End EnrichRun.

(** C6: in a run of [enrich_citation_metadata] every record is handled
    by one pass, from the state the passes before it leave.  A pass
    looks its record up if one of title, authors and year is empty, and
    only then; it changes no other record, and in its own it assigns
    what the lookup returned to the fields that were empty and to no
    other; a lookup that failed or that returned nothing leaves the
    record as it was.  Over records that are pairwise distinct, the
    lookups made are those of the records incomplete at the start, in
    order, each record ends as its own pass left it, and the records
    outside the list are not changed. *)
Theorem enrich_fills_only_empty_fields
    (crossref : nat -> string -> reply) (progress_callback : bool)
    (h : heap) (citations : list loc) :
  let run := enrich_citation_metadata crossref progress_callback h citations in
  let pass := enrich_one crossref progress_callback in
  let from := enrich_from crossref progress_callback (List.length citations) in
  fst run = citations /\
  (forall pre c post,
      citations = (pre ++ c :: post)%list ->
      snd run =
      from (S (List.length pre)) post
        (pass (List.length citations) (List.length pre) c (from 0 pre (h, [])))) /\
  (forall total i c hc log,
      lookups (snd (pass total i c (hc, log))) =
        (lookups log ++ (if incomplete (hc c) then [doi (hc c)] else []))%list /\
      (forall l, l <> c -> fst (pass total i c (hc, log)) l = hc l) /\
      fst (pass total i c (hc, log)) c =
        (if incomplete (hc c)
         then filled_record (hc c) (get_metadata_from_crossref (crossref i (doi (hc c))))
         else hc c)) /\
  (forall r t a y,
      doi (filled_record r (t, a, y)) = doi r /\
      source (filled_record r (t, a, y)) = source r /\
      (has_title (title r) = true -> title (filled_record r (t, a, y)) = title r) /\
      (has_authors (authors r) = true -> authors (filled_record r (t, a, y)) = authors r) /\
      (has_year (year r) = true -> year (filled_record r (t, a, y)) = year r) /\
      (title (filled_record r (t, a, y)) = title r \/
       has_title (title r) = false /\ title (filled_record r (t, a, y)) = t) /\
      (authors (filled_record r (t, a, y)) = authors r \/
       has_authors (authors r) = false /\ authors (filled_record r (t, a, y)) = a) /\
      (year (filled_record r (t, a, y)) = year r \/
       has_year (year r) = false /\ year (filled_record r (t, a, y)) = y)) /\
  (forall r,
      filled_record r (get_metadata_from_crossref NoMessage) = r /\
      filled_record r (get_metadata_from_crossref Malformed) = r /\
      filled_record r (Some "", [], "") = r) /\
  (NoDup citations ->
   lookups (snd (snd run)) =
     map (fun c => doi (h c)) (filter (fun c => incomplete (h c)) citations) /\
   (forall l, ~ In l citations -> fst (snd run) l = h l) /\
   (forall j c, nth_error citations j = Some c ->
      fst (snd run) c =
      if incomplete (h c)
      then filled_record (h c) (get_metadata_from_crossref (crossref j (doi (h c))))
      else h c)).
Proof.
  cbv zeta. unfold enrich_citation_metadata. cbn [fst snd].
  split; [reflexivity|]. split; [|split; [|split; [|split]]].
  - intros pre c post ->.
    rewrite (enrich_from_app _ _ _ 0 pre (c :: post)). reflexivity.
  - intros total i c hc log. apply enrich_one_spec.
  - intros r t a y. destruct r as [d t' a' y' s]. unfold filled_record. cbn.
    repeat split; try (intros ->; now rewrite andb_false_r).
    + destruct (has_title t && negb (has_title t')) eqn:E; [|now left].
      right. apply andb_true_iff in E as [_ E]. apply negb_true_iff in E. auto.
    + destruct (has_authors a && negb (has_authors a')) eqn:E; [|now left].
      right. apply andb_true_iff in E as [_ E]. apply negb_true_iff in E. auto.
    + destruct (has_year y && negb (has_year y')) eqn:E; [|now left].
      right. apply andb_true_iff in E as [_ E]. apply negb_true_iff in E. auto.
  - intros r. repeat split; apply filled_record_nothing; reflexivity.
  - intros Hn.
    destruct (enrich_from_distinct crossref progress_callback citations
                (List.length citations) 0 h [] Hn) as (Hl & Ho & Ha).
    repeat split; assumption.
Qed.

Lemma enrich_fills_only_empty_fields_witness :
  lookups (snd (snd (enrich_citation_metadata crossref_example true
                       heap_to_enrich [0; 1; 2]))) = ["10.1000/b"; "10.1000/c"] /\
  fst (snd (enrich_citation_metadata crossref_example true heap_to_enrich [0; 1; 2])) 1 =
    mkCitation "10.1000/b" (Some "Found") ["Ada Lovelace"; "Analytical Society"] "1843"
      "OpenCitations" /\
  fst (snd (enrich_citation_metadata crossref_example true heap_to_enrich [0; 1; 2])) 2 =
    heap_to_enrich 2.
Proof.
  assert (Hn : NoDup [0; 1; 2])
    by (repeat constructor; simpl; intuition discriminate).
  destruct (enrich_fills_only_empty_fields crossref_example true heap_to_enrich [0; 1; 2])
    as (_ & _ & _ & _ & _ & H).
  destruct (H Hn) as (Hl & _ & Ha).
  split; [rewrite Hl; reflexivity|].
  split; [rewrite (Ha 1 1 eq_refl) | rewrite (Ha 2 2 eq_refl)]; reflexivity.
Defined.

(** ** The definitions at work *)

Example unquote_examples :
  unquote "10.1234/a%2541" = "10.1234/a%41" /\
  unquote "10.1234/a%41" = "10.1234/aA" /\
  unquote "%%41" = "%A" /\
  unquote "%4%41" = "%4A" /\
  unquote "%zz%4" = "%zz%4" /\
  unquote "10.1000%2fx" = "10.1000/x".
Proof. repeat split; reflexivity. Qed.

Example doi_pattern_examples :
  doi_pattern "10.1234/a" = true /\
  doi_pattern ("10.1234/a" ++ nl) = true /\
  doi_pattern ("10.1234/a" ++ nl ++ "b") = false /\
  doi_pattern ("10.1234/" ++ nl) = false /\
  doi_pattern ("10.1234/a" ++ nl ++ nl) = false /\
  doi_pattern "10.1/AbC" = false /\
  doi_pattern "10.12345/x y" = true /\
  doi_pattern "10.1234/" = false /\
  doi_pattern "10.abc/x" = false.
Proof. repeat split; reflexivity. Qed.

Example splitlines_examples :
  splitlines ("a" ++ String "013" nl ++ "b" ++ nl ++ nl ++ "c" ++ nl) = ["a"; "b"; ""; "c"] /\
  splitlines "" = [] /\
  splitlines nl = [""] /\
  splitlines ("a" ++ nl ++ String "013" "b") = ["a"; ""; "b"].
Proof. repeat split; reflexivity. Qed.

Example strip_examples :
  strip (String "028" " a " ++ String "031" "") = "a" /\
  strip "  10.1000/x y  " = "10.1000/x y" /\
  first_col "  x  y z" = Some "x" /\
  first_col "   " = None.
Proof. repeat split; reflexivity. Qed.

Example normalize_doi_examples :
  normalize_doi "10.1000/xyz123" = Some "10.1000/xyz123" /\
  normalize_doi " HTTPS://DX.DOI.ORG/10.1000%2FXyz " = Some "10.1000/xyz" /\
  normalize_doi "doi: 10.1000/X" = Some "10.1000/x" /\
  normalize_doi "doi:doi:10.1000/x" = None /\
  normalize_doi "" = None /\
  normalize_doi "not-a-doi" = None /\
  normalize_doi "10.abc/x" = None.
Proof. repeat split; reflexivity. Qed.

(** One record has the title and the other the year: merged in either
    order the record returned has both, and the source tag of the one
    that came first. *)
Example merge_covers_both_orders :
  let h : heap := fun l =>
    match l with
    | 0 => mkCitation "10.1000/a" (Some "T") [] "" "A"
    | _ => mkCitation "10.1000/a" (Some "") [] "2020" "B"
    end in
  fst (merge_citations h [0] [1]) = [0] /\
  snd (merge_citations h [0] [1]) 0 = mkCitation "10.1000/a" (Some "T") [] "2020" "A" /\
  fst (merge_citations h [1] [0]) = [1] /\
  snd (merge_citations h [1] [0]) 1 = mkCitation "10.1000/a" (Some "T") [] "2020" "B".
Proof. repeat split; reflexivity. Qed.

(** A record that is twice in a list is one object. *)
Example merge_same_object_twice :
  fst (merge_citations heap_two_sources [1; 0; 1] [0; 1]) = [1] /\
  snd (merge_citations heap_two_sources [1; 0; 1] [0; 1]) 1 = heap_two_sources 1 /\
  snd (merge_citations heap_two_sources [1; 0; 1] [0; 1]) 0 = heap_two_sources 0.
Proof. repeat split; reflexivity. Qed.

Example crossref_metadata :
  get_metadata_from_crossref (crossref_example 1 "10.1000/b") =
    (Some "Found", ["Ada Lovelace"; "Analytical Society"], "1843") /\
  get_metadata_from_crossref (crossref_example 0 "10.1000/a") = (None, [], "").
Proof. split; reflexivity. Qed.

Example openalex_record :
  citation_of (mkWork (Some "https://doi.org/10.1000/ABC") None
                 [Some "A. Author"; None; Some ""; Some "B. Author"] (Some 2021%Z)) =
    Some (mkCitation "10.1000/abc" None ["A. Author"; "B. Author"] "2021" "OpenAlex") /\
  citation_of (mkWork (Some "n/a") (Some "T") [] None) = None.
Proof. split; reflexivity. Qed.

(** * More of the code *)

Import Shapes.

(** ** The normaliser: canonical values, case and white space *)

Lemma string_length_ind (P : string -> Prop) :
  (forall s, (forall t, String.length t < String.length s -> P t) -> P s) ->
  forall s, P s.
Proof.
  intros H s.
  assert (G : forall n t, String.length t < n -> P t).
  { induction n as [|n IH]; intros t Ht; [lia|].
    apply H. intros u Hu. apply IH. lia. }
  apply (G (S (String.length s))). lia.
Qed.

Lemma hex_val_lower_char c : hex_val (lower_char c) = hex_val c.
Proof. each_char c; reflexivity. Qed.

Lemma lower_char_percent c : Ascii.eqb c "%" = true -> lower_char c = c.
Proof. intros H. apply Ascii.eqb_eq in H. now subst. Qed.

(** Decoding sees no difference of case. *)
Lemma unquote_lower x : lower (unquote (lower x)) = lower (unquote x).
Proof.
  induction x as [x IH] using string_length_ind.
  destruct x as [|c t]; [reflexivity|].
  assert (Ht : lower (unquote (lower t)) = lower (unquote t)) by (apply IH; simpl; lia).
  unfold lower in *. cbn [smap unquote]. rewrite eqb_lower_char_percent.
  destruct (Ascii.eqb c "%") eqn:Ec.
  - destruct t as [|a [|b r]].
    + cbn [smap]. now rewrite lower_char_idem.
    + cbn [smap unquote] in *. now rewrite lower_char_idem, Ht.
    + cbn [smap]. rewrite !hex_val_lower_char.
      destruct (hex_val a), (hex_val b); cbn [smap];
        try (rewrite lower_char_idem; f_equal; exact Ht).
      f_equal. apply IH. simpl. lia.
  - cbn [smap]. now rewrite lower_char_idem, Ht.
Qed.

Lemma remove_prefix_lower ps u v :
  lower (remove_prefix ps u v) = remove_prefix ps u (lower v).
Proof.
  induction ps as [|p ps IH]; simpl; [reflexivity|].
  destruct (startswith u p); [now rewrite drop_lower | exact IH].
Qed.

Lemma normalize_doi_by_lower x :
  normalize_doi x =
  if negb (nonempty x) then None else normalize_lower (lower (unquote x)).
Proof.
  unfold normalize_doi, normalize_lower.
  destruct (negb (nonempty x)); [reflexivity|]. cbv zeta.
  rewrite strip_lower.
  set (s := strip (unquote x)).
  rewrite <- remove_prefix_lower, strip_lower, doi_pattern_lower.
  reflexivity.
Qed.

Lemma nonempty_lower x : nonempty (lower x) = nonempty x.
Proof. destruct x; reflexivity. Qed.

Lemma normalize_doi_form x y :
  normalize_doi x = Some y ->
  doi_pattern y = true /\ lower y = y /\ strip y = y.
Proof.
  unfold normalize_doi. destruct (negb (nonempty x)); [discriminate|]. cbv zeta.
  set (d := strip (remove_prefix prefixes (lower (strip (unquote x))) (strip (unquote x)))).
  destruct (doi_pattern d) eqn:Hp; [|discriminate]. intros [= <-].
  assert (Hd : strip d = d) by (unfold d; apply strip_idem).
  rewrite doi_pattern_lower, lower_idem, strip_lower, Hd. auto.
Qed.

(** X1: a value [normalize_doi] returns matches the pattern, is in lower
    case and has no white space around it; none of the known prefixes is
    left on it. *)
Theorem normalize_doi_returns_canonical (x y : string) :
  normalize_doi x = Some y ->
  doi_pattern y = true /\
  lower y = y /\
  strip y = y /\
  startswith y "10." = true /\
  remove_prefix prefixes (lower y) y = y.
Proof.
  intros H. destruct (normalize_doi_form x y H) as (Hp & Hl & Hs).
  repeat split; try assumption.
  - destruct y as [|a [|b [|c t]]]; try discriminate Hp.
    unfold doi_pattern in Hp.
    destruct (Ascii.eqb a "1") eqn:Ea; [|discriminate Hp].
    destruct (Ascii.eqb b "0") eqn:Eb; [|discriminate Hp].
    destruct (Ascii.eqb c ".") eqn:Ec; [|discriminate Hp].
    apply Ascii.eqb_eq in Ea, Eb, Ec. subst. reflexivity.
  - rewrite Hl. destruct (doi_pattern_head y Hp) as [t ->]. reflexivity.
Qed.

Lemma normalize_doi_returns_canonical_witness :
  doi_pattern "10.1000/abc d" = true /\ lower "10.1000/abc d" = "10.1000/abc d".
Proof.
  destruct (normalize_doi_returns_canonical " Doi:10.1000/ABC%20d " "10.1000/abc d")
    as (Hp & Hl & _); [reflexivity|]. split; assumption.
Defined.

(** X2: the normaliser does not tell letter cases apart: two inputs that
    differ in the case of their letters alone, escapes and prefix
    included, have the same result. *)
Theorem normalize_doi_case_insensitive (x x' : string) :
  lower x = lower x' -> normalize_doi x = normalize_doi x'.
Proof.
  intros E. rewrite !normalize_doi_by_lower.
  rewrite <- (nonempty_lower x), <- (nonempty_lower x'), E.
  rewrite <- (unquote_lower x), <- (unquote_lower x'), E. reflexivity.
Qed.

Lemma normalize_doi_case_insensitive_witness :
  normalize_doi "HTTPS://DOI.ORG/10.1000%2fABC" = normalize_doi "https://doi.org/10.1000%2Fabc".
Proof.
  apply (normalize_doi_case_insensitive "HTTPS://DOI.ORG/10.1000%2fABC"
           "https://doi.org/10.1000%2Fabc").
  reflexivity.
Defined.

Lemma sapp_assoc (s t u : string) : (s ++ t) ++ u = s ++ t ++ u.
Proof. induction s as [|c s IH]; simpl; congruence. Qed.

Lemma sapp_nil_r (s : string) : s ++ "" = s.
Proof. induction s as [|c s IH]; simpl; congruence. Qed.

Lemma lstrip_split s : exists w, spaces w = true /\ s = w ++ lstrip s.
Proof.
  induction s as [|c s (w & Hw & E)]; [exists ""; auto|].
  simpl. destruct (is_space c) eqn:Ec.
  - exists (String c w). simpl. rewrite Ec, Hw. split; [reflexivity | now rewrite <- E].
  - exists "". auto.
Qed.

Lemma rstrip_split s : exists w, spaces w = true /\ s = rstrip s ++ w.
Proof.
  induction s as [|c s (w & Hw & E)]; [exists ""; auto|].
  simpl. destruct (rstrip s) as [|d r] eqn:Er.
  - destruct (is_space c) eqn:Ec.
    + exists (String c w). simpl in *. rewrite Ec, Hw. split; [reflexivity | now rewrite <- E].
    + exists w. simpl in *. split; [exact Hw | now rewrite <- E].
  - exists w. split; [exact Hw|]. simpl in *. f_equal. exact E.
Qed.

Lemma lstrip_spaces w s : spaces w = true -> lstrip (w ++ s) = lstrip s.
Proof.
  induction w as [|c w IH]; simpl; [reflexivity|].
  intros H. apply andb_true_iff in H as [-> H]. now apply IH.
Qed.

Lemma rstrip_only_spaces w : spaces w = true -> rstrip w = "".
Proof.
  induction w as [|c w IH]; simpl; [reflexivity|].
  intros H. apply andb_true_iff in H as [-> H]. now rewrite IH.
Qed.

Lemma rstrip_spaces s w : spaces w = true -> rstrip (s ++ w) = rstrip s.
Proof.
  intros H. induction s as [|c s IH]; simpl; [now apply rstrip_only_spaces|].
  now rewrite IH.
Qed.

Lemma strip_spaces w1 s w2 :
  spaces w1 = true -> spaces w2 = true -> strip (w1 ++ s ++ w2) = strip s.
Proof.
  intros H1 H2. unfold strip.
  rewrite <- !rstrip_lstrip, lstrip_spaces by exact H1.
  now rewrite !rstrip_lstrip, rstrip_spaces.
Qed.

Lemma strip_split s :
  exists w1 w2, spaces w1 = true /\ spaces w2 = true /\ s = w1 ++ strip s ++ w2.
Proof.
  destruct (rstrip_split s) as (w2 & H2 & E2).
  destruct (lstrip_split (rstrip s)) as (w1 & H1 & E1).
  exists w1, w2. repeat split; try assumption.
  unfold strip. rewrite <- sapp_assoc, <- E1. exact E2.
Qed.

Lemma spaces_no_percent w : spaces w = true -> has_percent w = false.
Proof.
  induction w as [|c w IH]; simpl; [reflexivity|].
  intros H. apply andb_true_iff in H as [Hc H]. rewrite IH by exact H.
  revert Hc. each_char c; simpl; intros Hc; try reflexivity; discriminate Hc.
Qed.

Lemma hex_val_space c : is_space c = true -> hex_val c = None.
Proof. each_char c; simpl; intros H; try reflexivity; discriminate H. Qed.

(** White space after the text is not part of any escape. *)
Lemma unquote_spaces m w : spaces w = true -> unquote (m ++ w) = unquote m ++ w.
Proof.
  intros Hw. induction m as [m IH] using string_length_ind.
  destruct m as [|c t].
  - simpl. rewrite <- (sapp_nil_r w) at 1.
    rewrite unquote_app by now apply spaces_no_percent. apply sapp_nil_r.
  - assert (Ht : unquote (t ++ w) = unquote t ++ w) by (apply IH; simpl; lia).
    cbn [append unquote]. destruct (Ascii.eqb c "%"); [|now rewrite Ht].
    destruct t as [|a [|b r]].
    + cbn [append] in *. rewrite Ht.
      destruct w as [|a [|b r]]; try reflexivity.
      simpl in Hw. apply andb_true_iff in Hw as [Ha _].
      now rewrite (hex_val_space a Ha).
    + cbn [append] in *. rewrite Ht.
      destruct w as [|b r]; [reflexivity|].
      simpl in Hw. apply andb_true_iff in Hw as [Hb _].
      rewrite (hex_val_space b Hb). destruct (hex_val a); reflexivity.
    + cbn [append] in *. rewrite Ht.
      destruct (hex_val a), (hex_val b); try reflexivity.
      cbn [append]. f_equal. apply IH. simpl. lia.
Qed.

Lemma strip_unquote x : strip (unquote x) = strip (unquote (strip x)).
Proof.
  destruct (strip_split x) as (w1 & w2 & H1 & H2 & E).
  set (m := strip x) in *. rewrite E.
  rewrite unquote_app by now apply spaces_no_percent.
  rewrite unquote_spaces by exact H2.
  now apply strip_spaces.
Qed.

Lemma normalize_doi_by_lower_strip x : normalize_doi (strip x) = normalize_doi x.
Proof.
  unfold normalize_doi.
  rewrite <- (strip_unquote x).
  destruct x as [|c t]; [reflexivity|]. cbn [nonempty negb].
  destruct (strip (String c t)) as [|c' t'] eqn:E; [|reflexivity].
  cbn [nonempty negb].
  rewrite (strip_unquote (String c t)), E. reflexivity.
Qed.

(** X3: white space around the input changes nothing: [normalize_doi]
    of the stripped input is [normalize_doi] of the input. *)
Theorem normalize_doi_ignores_outer_space (x : string) :
  normalize_doi (strip x) = normalize_doi x /\
  (forall w1 w2, spaces w1 = true -> spaces w2 = true ->
                 normalize_doi (w1 ++ x ++ w2) = normalize_doi x).
Proof.
  split; [apply normalize_doi_by_lower_strip|].
  intros w1 w2 H1 H2.
  rewrite <- (normalize_doi_by_lower_strip (w1 ++ x ++ w2)), strip_spaces by assumption.
  apply normalize_doi_by_lower_strip.
Qed.

(** ** Publisher codes and identifiers *)

Import Pubid.

Lemma digits_no_percent t : digits t = true -> has_percent t = false.
Proof.
  induction t as [|c t IH]; simpl; [reflexivity|].
  intros H. apply andb_true_iff in H as [Hc H]. rewrite IH by exact H.
  revert Hc. each_char c; simpl; intros Hc; try reflexivity; discriminate Hc.
Qed.

Lemma unquote_no_percent s : has_percent s = false -> unquote s = s.
Proof.
  intros H. rewrite <- (sapp_nil_r s) at 1. rewrite unquote_app by exact H.
  apply sapp_nil_r.
Qed.

Lemma pubid_pattern_inv s :
  pubid_pattern s = true ->
  exists c t, s = String c t /\ (c = "J" \/ c = "j")%char /\
              digits t = true /\ t <> "".
Proof.
  destruct s as [|c [|d t]]; try discriminate. unfold pubid_pattern.
  intros H. apply andb_true_iff in H as [H Ht]. apply andb_true_iff in H as [Hc Hd].
  exists c, (String d t). repeat split.
  - apply orb_true_iff in Hc as [Hc|Hc]; apply Ascii.eqb_eq in Hc; auto.
  - simpl. now rewrite Hd, Ht.
  - discriminate.
Qed.

(** X4: a publisher code is no identifier: what
    [is_crossref_depositor_pubid] accepts, [normalize_doi] rejects. *)
Theorem pubid_is_no_doi (value : string) :
  is_crossref_depositor_pubid value = true -> normalize_doi value = None.
Proof.
  unfold is_crossref_depositor_pubid.
  destruct (negb (nonempty value)); [discriminate|]. intros H.
  rewrite <- normalize_doi_by_lower_strip.
  destruct (pubid_pattern_inv _ H) as (c & t & E & Hc & Ht & _).
  rewrite E.
  assert (Hu : unquote (String c t) = String c t).
  { apply unquote_no_percent. simpl. rewrite (digits_no_percent t Ht).
    destruct Hc as [-> | ->]; reflexivity. }
  assert (Hs : strip (String c t) = String c t) by (rewrite <- E; apply strip_idem).
  unfold normalize_doi. cbn [nonempty negb]. rewrite Hu, Hs.
  assert (Hr : remove_prefix prefixes (lower (String c t)) (String c t) = String c t)
    by (destruct Hc as [-> | ->]; reflexivity).
  rewrite Hr, Hs.
  destruct (doi_pattern (String c t)) eqn:Hp; [|reflexivity].
  destruct (doi_pattern_head _ Hp) as [t' Et].
  destruct Hc as [-> | ->]; discriminate Et.
Qed.

Lemma pubid_is_no_doi_witness :
  is_crossref_depositor_pubid " j645505 " = true /\ normalize_doi " j645505 " = None.
Proof.
  split; [reflexivity|]. apply (pubid_is_no_doi " j645505 "). reflexivity.
Defined.

Lemma digit_not_space c : is_digit c = true -> is_space c = false.
Proof. each_char c; simpl; intros H; try reflexivity; discriminate H. Qed.

Lemma digit_upper_char c : is_digit c = true -> upper_char c = c.
Proof. each_char c; simpl; intros H; try reflexivity; discriminate H. Qed.

Lemma digits_upper t : digits t = true -> upper t = t.
Proof.
  unfold upper. induction t as [|c t IH]; simpl; [reflexivity|].
  intros H. apply andb_true_iff in H as [Hc H].
  now rewrite digit_upper_char, IH.
Qed.

Lemma digits_rstrip t : digits t = true -> rstrip t = t.
Proof.
  induction t as [|c t IH]; simpl; [reflexivity|].
  intros H. apply andb_true_iff in H as [Hc H]. rewrite IH by exact H.
  destruct t; [now rewrite digit_not_space | reflexivity].
Qed.

Lemma pubid_strip c t :
  is_space c = false -> digits t = true -> strip (String c t) = String c t.
Proof.
  intros Hc Ht. unfold strip.
  assert (Hr : rstrip (String c t) = String c t).
  { change (rstrip (String c t))
      with (match rstrip t with
            | EmptyString => if is_space c then EmptyString else String c EmptyString
            | t' => String c t'
            end).
    rewrite digits_rstrip by exact Ht. destruct t; [now rewrite Hc | reflexivity]. }
  rewrite Hr. cbn [lstrip]. now rewrite Hc.
Qed.

(** X5: of an input that [is_crossref_depositor_pubid] accepts, the code
    [main] asks the report of is the letter J followed by one digit or
    more, and is accepted in turn; white space around an input does not
    change whether it is accepted. *)
Theorem pubid_of_is_canonical :
  (forall value,
      is_crossref_depositor_pubid value = true ->
      exists t, pubid_of value = String "J" t /\ digits t = true /\ t <> "" /\
                is_crossref_depositor_pubid (pubid_of value) = true) /\
  (forall value w1 w2,
      spaces w1 = true -> spaces w2 = true ->
      is_crossref_depositor_pubid (w1 ++ value ++ w2) =
      is_crossref_depositor_pubid value).
Proof.
  split.
  - intros value. unfold is_crossref_depositor_pubid, pubid_of.
    destruct (negb (nonempty value)); [discriminate|]. intros H.
    destruct (pubid_pattern_inv _ H) as (c & t & E & Hc & Ht & Hn).
    rewrite E. exists t.
    assert (Eu : upper (String c t) = String "J" t).
    { unfold upper. cbn [smap]. fold (upper t). rewrite digits_upper by exact Ht.
      destruct Hc as [-> | ->]; reflexivity. }
    rewrite Eu. repeat split; try assumption.
    cbn [nonempty negb]. rewrite pubid_strip by (exact Ht || reflexivity).
    destruct t as [|d t]; [contradiction|]. simpl in *. exact Ht.
  - intros value w1 w2 H1 H2. unfold is_crossref_depositor_pubid.
    rewrite strip_spaces by assumption.
    destruct value as [|c t].
    + simpl. destruct (w1 ++ w2); reflexivity.
    + replace (nonempty (w1 ++ String c t ++ w2)) with true
        by (destruct w1; reflexivity).
      reflexivity.
Qed.

Lemma pubid_of_is_canonical_witness :
  pubid_of " j645505 " = "J645505" /\
  is_crossref_depositor_pubid "J645505" = true.
Proof.
  destruct (proj1 pubid_of_is_canonical " j645505 " eq_refl) as (t & E & _ & _ & H).
  split; [reflexivity|]. exact H.
Defined.

(** ** The fetcher: bounds, interrupts and bodies that do not decode *)

Section FetcherMore.
Context {Body : Type}.
Variable env : nat -> Fetcher.outcome Body.

Lemma handlers_next_bound a (o : Fetcher.outcome Body) s :
  handlers (try_block a o) = Next s -> 1 <= s <= (a + 1) * 5.
Proof.
  destruct o as [st [b|]|[]]; simpl;
    repeat (match goal with |- context [(?x =? ?y)%Z] => destruct (x =? y)%Z end; simpl);
    intros [= <-]; lia.
Qed.

Lemma attempts_bounds n a :
  requests (snd (attempts env n a)) <= n /\
  2 * slept (snd (attempts env n a)) <= 5 * n * (2 * a + n + 1).
Proof.
  revert a. induction n as [|n IH]; intros a; simpl; [lia|].
  destruct (handlers (try_block a (env a))) as [v|s|e] eqn:E; simpl; try nia.
  apply handlers_next_bound in E.
  destruct (IH (S a)) as [Hr Hs].
  destruct (attempts env n (S a)) as [r log]. simpl in *. nia.
Qed.

Lemma attempts_raise n a k :
  requested k (snd (attempts env n a)) ->
  env k = Fails KeyboardInterrupt ->
  fst (attempts env n a) = Propagates KeyboardInterrupt /\
  (forall j, requested j (snd (attempts env n a)) -> j <= k).
Proof.
  revert a. induction n as [|n IH]; intros a; simpl; [intros []|].
  destruct (handlers (try_block a (env a))) as [v'|s|e] eqn:E.
  - simpl. intros [[= <-]|[]] Hk. rewrite Hk in E. discriminate E.
  - specialize (IH (S a)). pose proof (requested_from env n (S a)) as Hr.
    destruct (attempts env n (S a)) as [r log]. simpl in *.
    intros [[= <-]|[H|H]] Hk; [rewrite Hk in E; discriminate E | discriminate H |].
    destruct (IH H Hk) as [-> Hj]. split; [reflexivity|].
    intros j [[= <-]|[Hq|Hq]]; [apply Hr in H; lia | discriminate Hq | now apply Hj].
  - simpl. intros [[= <-]|[]] Hk. rewrite Hk in E. injection E as <-.
    split; [reflexivity|]. intros j [[= <-]|[]]. lia.
Qed.

Lemma attempts_propagates n a e :
  fst (attempts env n a) = Propagates e ->
  e = KeyboardInterrupt /\
  exists k, requested k (snd (attempts env n a)) /\ env k = Fails KeyboardInterrupt.
Proof.
  revert a. induction n as [|n IH]; intros a; simpl; [discriminate|].
  destruct (handlers (try_block a (env a))) as [v'|s|e'] eqn:E.
  - discriminate.
  - specialize (IH (S a)).
    destruct (attempts env n (S a)) as [r log]. simpl in *.
    intros H. destruct (IH H) as (-> & k & Hk & Ek).
    split; [reflexivity|]. exists k. unfold requested in *. simpl. auto.
  - simpl. intros [= <-]. pose proof (handlers_raise _ _ _ E) as Hi.
    rewrite Hi in E. simpl in E. injection E as <-.
    split; [reflexivity|]. exists a. unfold requested. simpl. auto.
Qed.

Lemma attempts_pause n a k s :
  requested k (snd (attempts env n a)) ->
  handlers (try_block k (env k)) = Next s ->
  exists l1 l2,
    snd (attempts env n a) = (l1 ++ Request k :: Sleep s :: l2)%list.
Proof.
  revert a. induction n as [|n IH]; intros a; simpl; [intros []|].
  destruct (handlers (try_block a (env a))) as [v|s'|e] eqn:E.
  - simpl. intros [[= <-]|[]] Hk. congruence.
  - specialize (IH (S a)).
    destruct (attempts env n (S a)) as [r log]. simpl in *.
    intros [[= <-]|[H|H]] Hk; [| discriminate H |].
    + rewrite Hk in E. injection E as <-. exists [], log. reflexivity.
    + destruct (IH H Hk) as (l1 & l2 & ->).
      exists (Request a :: Sleep s' :: l1), l2. reflexivity.
  - simpl. intros [[= <-]|[]] Hk. congruence.
Qed.

Lemma attempts_first n a : 0 < n -> requested a (snd (attempts env n a)).
Proof.
  unfold requested. destruct n as [|n]; [lia|]. intros _. simpl.
  destruct (handlers (try_block a (env a))); simpl; auto.
  destruct (attempts env n (S a)). simpl. auto.
Qed.

Lemma attempts_next n a k s :
  requested k (snd (attempts env n a)) ->
  handlers (try_block k (env k)) = Next s ->
  S k < a + n ->
  requested (S k) (snd (attempts env n a)).
Proof.
  revert a. induction n as [|n IH]; intros a; simpl; [intros []|].
  destruct (handlers (try_block a (env a))) as [v|s'|e] eqn:E.
  - simpl. intros [Hq|[]] Hk. injection Hq as ->. congruence.
  - specialize (IH (S a)). pose proof (attempts_first n (S a)) as Hf.
    destruct (attempts env n (S a)) as [r log]. unfold requested in *. simpl in *.
    intros [Hq|[H|H]] Hk Hlt; [| discriminate H |].
    + injection Hq as ->. right. right. apply Hf. lia.
    + right. right. apply IH; [exact H | exact Hk | lia].
  - simpl. intros [Hq|[]] Hk. injection Hq as ->. congruence.
Qed.

End FetcherMore.

(** X6: [make_request] makes at most [retry] requests and pauses for at
    most five seconds times 1 + 2 + ... + [retry] in all: under the
    default of three attempts, at most three requests and thirty
    seconds. *)
Theorem make_request_is_bounded {Body : Type} (retry : nat) (env : nat -> Fetcher.outcome Body) :
  requests (snd (make_request retry env)) <= retry /\
  2 * slept (snd (make_request retry env)) <= 5 * retry * (retry + 1) /\
  requests (snd (make_request RETRY_COUNT env)) <= 3 /\
  slept (snd (make_request RETRY_COUNT env)) <= 30.
Proof.
  unfold make_request.
  pose proof (attempts_bounds env retry 0) as [Hr Hs].
  pose proof (attempts_bounds env RETRY_COUNT 0) as [Hr3 Hs3].
  unfold RETRY_COUNT in *. repeat split; lia.
Qed.

(** X7: the operator's interrupt is the one thing [make_request] lets
    through: an attempt that meets it is the last, and the interrupt
    propagates; and whatever propagates is the interrupt that an attempt
    met. *)
Theorem make_request_lets_the_interrupt_through {Body : Type}
    (retry : nat) (env : nat -> Fetcher.outcome Body) :
  (forall k,
      requested k (snd (make_request retry env)) ->
      env k = Fails KeyboardInterrupt ->
      fst (make_request retry env) = Propagates KeyboardInterrupt /\
      (forall j, requested j (snd (make_request retry env)) -> j <= k)) /\
  (forall e,
      fst (make_request retry env) = Propagates e ->
      e = KeyboardInterrupt /\
      exists k, requested k (snd (make_request retry env)) /\
                env k = Fails KeyboardInterrupt).
Proof.
  unfold make_request. split.
  - intros k Hk Ek. now apply attempts_raise.
  - intros e He. now apply attempts_propagates.
Qed.

Lemma make_request_lets_the_interrupt_through_witness :
  fst (make_request RETRY_COUNT env_timeout_interrupt) = Propagates KeyboardInterrupt /\
  snd (make_request RETRY_COUNT env_timeout_interrupt) = [Request 0; Sleep 2; Request 1].
Proof.
  split; [|reflexivity].
  destruct (make_request_lets_the_interrupt_through RETRY_COUNT env_timeout_interrupt)
    as [H _].
  destruct (H 1) as [E _]; [unfold requested; simpl; intuition | reflexivity | exact E].
Defined.

(** X8: an attempt that meets a 200 whose body decodes is the last, and
    [make_request] returns that body; a 200 whose body does not decode
    is not returned: the attempt is followed by a pause of one second,
    as after a failed request, and the loop goes on. *)
Theorem make_request_returns_what_decodes {Body : Type}
    (retry : nat) (env : nat -> Fetcher.outcome Body) :
  (forall k b,
      requested k (snd (make_request retry env)) ->
      env k = Responds 200%Z (Some b) ->
      fst (make_request retry env) = Returns (Some b) /\
      (forall j, requested j (snd (make_request retry env)) -> j <= k)) /\
  (forall k,
      requested k (snd (make_request retry env)) ->
      env k = Responds 200%Z None ->
      (exists l1 l2,
          snd (make_request retry env) = (l1 ++ Request k :: Sleep 1 :: l2)%list) /\
      (S k < retry -> requested (S k) (snd (make_request retry env)))).
Proof.
  unfold make_request. split.
  - intros k b Hk Ek. apply attempts_settle; [exact Hk | now rewrite Ek].
  - intros k Hk Ek.
    destruct (attempts_pause env retry 0 k 1 Hk) as (l1 & l2 & E); [now rewrite Ek|].
    split; [eauto|]. intros Hlt.
    apply (attempts_next env retry 0 k 1 Hk); [now rewrite Ek | lia].
Qed.

Lemma make_request_returns_what_decodes_witness :
  fst (make_request RETRY_COUNT env_undecodable_200) = Returns (Some "{}") /\
  requested 1 (snd (make_request RETRY_COUNT env_undecodable_200)).
Proof.
  destruct (make_request_returns_what_decodes RETRY_COUNT env_undecodable_200)
    as [H1 H2].
  split.
  - destruct (H1 1 "{}") as [E _];
      [unfold requested; simpl; intuition | reflexivity | exact E].
  - destruct (H2 0) as [_ N];
      [unfold requested; simpl; intuition | reflexivity |].
    apply N. unfold RETRY_COUNT. lia.
Defined.

(** ** The Depositor-Report reader: what it returns *)

Lemma scan_line_line_dois dois line :
  scan_line dois line = Some (dois ++ line_dois line)%list.
Proof.
  unfold scan_line, line_dois, first_col. rewrite lstrip_strip.
  destruct (strip line) as [|c t]; cbn [nonempty negb]; [now rewrite app_nil_r|].
  destruct (startswith _ _); [now rewrite app_nil_r|].
  destruct (normalize_doi (word (String c t))); [reflexivity | now rewrite app_nil_r].
Qed.

Lemma scan_lines_flat lines dois :
  scan_lines dois lines = Some (dois ++ flat_map line_dois lines)%list.
Proof.
  revert dois. induction lines as [|line lines IH]; intros dois; simpl.
  - now rewrite app_nil_r.
  - rewrite scan_line_line_dois, IH, <- app_assoc. reflexivity.
Qed.

Lemma line_dois_canonical line :
  Forall canonical (line_dois line) /\ List.length (line_dois line) <= 1.
Proof.
  unfold line_dois.
  destruct (negb (nonempty (strip line))); [simpl; auto|].
  destruct (startswith _ _); [simpl; auto|].
  destruct (first_col (strip line)) as [col|]; [|simpl; auto].
  destruct (normalize_doi col) as [d|] eqn:E; [|simpl; auto].
  split; [|simpl; lia]. constructor; [|constructor].
  exact (normalize_doi_form _ _ E).
Qed.

Lemma flat_line_dois_canonical lines :
  Forall canonical (flat_map line_dois lines) /\
  List.length (flat_map line_dois lines) <= List.length lines.
Proof.
  induction lines as [|line lines [IHc IHl]]; simpl; [auto|].
  destruct (line_dois_canonical line) as [Hc Hl].
  split; [apply Forall_app; auto | rewrite length_app; lia].
Qed.

(** X9: the reader never raises, whatever the report: it returns a list,
    every identifier in it is in canonical form, and there are no more
    identifiers than lines; no report, or an empty one, gives the empty
    list. *)
Theorem depositor_report_returns_canonical (text : option string) :
  exists dois,
    read_dois_from_crossref_depositor_report text = Some dois /\
    Forall canonical dois /\
    List.length dois <=
      List.length (splitlines (match text with Some t => t | None => "" end)) /\
    (text = None \/ text = Some "" -> dois = []).
Proof.
  destruct text as [t|].
  - rewrite read_report_lines, scan_lines_flat.
    destruct (flat_line_dois_canonical (splitlines t)) as [Hc Hl].
    eexists. split; [reflexivity|]. simpl. repeat split; auto.
    intros [H|[= ->]]; [discriminate | reflexivity].
  - exists []. simpl. repeat split; auto.
Qed.

(** X10: the reader keeps the order of the report and removes no
    repetition: the identifiers of a report are those of its first lines
    followed by those of the lines after them. *)
Theorem depositor_report_keeps_order (text : string) (l1 l2 : list string) :
  splitlines text = (l1 ++ l2)%list ->
  exists d1 d2,
    scan_lines [] l1 = Some d1 /\
    scan_lines [] l2 = Some d2 /\
    read_dois_from_crossref_depositor_report (Some text) = Some (d1 ++ d2)%list.
Proof.
  intros E. rewrite read_report_lines, E, !scan_lines_flat, flat_map_app.
  eexists. eexists. repeat split.
Qed.

Lemma depositor_report_keeps_order_witness :
  read_dois_from_crossref_depositor_report
    (Some ("10.1000/b 2019" ++ nl ++ "10.1000/a" ++ nl ++ "10.1000/B")) =
  Some ["10.1000/b"; "10.1000/a"; "10.1000/b"].
Proof.
  destruct (depositor_report_keeps_order
              ("10.1000/b 2019" ++ nl ++ "10.1000/a" ++ nl ++ "10.1000/B")
              ["10.1000/b 2019"] ["10.1000/a"; "10.1000/B"] eq_refl)
    as (d1 & d2 & H1 & H2 & H).
  injection H1 as <-. injection H2 as <-. exact H.
Defined.

(** ** The adapters: the records they return *)

Lemma extract_authors_nonempty l :
  Forall (fun name => nonempty name = true) (extract_authors_from_openalex l).
Proof.
  induction l as [|[name|] l IH]; simpl; auto.
  destruct (nonempty name) eqn:E; auto.
Qed.

Lemma citation_of_from_openalex w c : citation_of w = Some c -> from_openalex c.
Proof.
  unfold citation_of. destruct (w_doi w) as [raw|]; [|discriminate].
  destruct (nonempty raw); [|discriminate].
  destruct (normalize_doi raw) as [d|] eqn:E; [|discriminate].
  intros [= <-]. repeat split; simpl; try apply extract_authors_nonempty;
    apply (normalize_doi_form _ _ E).
Qed.

Lemma add_results_extends results cs :
  exists more,
    fst (add_results results cs) = (cs ++ more)%list /\ Forall from_openalex more.
Proof.
  revert cs. induction results as [|[w|] results IH]; intros cs; simpl.
  - exists []. now rewrite app_nil_r.
  - destruct (citation_of w) as [c|] eqn:E; [|apply IH].
    destruct (IH (cs ++ [c])%list) as (more & -> & Hm).
    exists (c :: more). rewrite <- app_assoc. split; [reflexivity|].
    constructor; [now apply (citation_of_from_openalex w) | exact Hm].
  - exists []. now rewrite app_nil_r.
Qed.

Lemma while_extends source fuel st st' :
  OpenAlex.while source fuel st = Some st' ->
  exists more,
    OpenAlex.citations st' = (OpenAlex.citations st ++ more)%list /\
    Forall from_openalex more /\
    exists cursors, sent st' = (sent st ++ cursors)%list.
Proof.
  revert st. induction fuel as [|fuel IH]; intros st; simpl.
  - destruct (negb (loop_test st)); [|discriminate]. intros [= <-].
    exists []. rewrite app_nil_r. repeat split; auto. exists []. now rewrite app_nil_r.
  - destruct (negb (loop_test st)).
    { intros [= <-]. exists []. rewrite app_nil_r. repeat split; auto.
      exists []. now rewrite app_nil_r. }
    unfold loop_body. destruct (cursor st) as [c|].
    2:{ intros [= <-]. exists []. rewrite app_nil_r. repeat split; auto.
        exists []. now rewrite app_nil_r. }
    cbn [OpenAlex.citations cursor page_count sent].
    destruct (source (page_count st) c) as [|results m].
    + intros [= <-]. exists []. cbn [OpenAlex.citations sent].
      rewrite app_nil_r. repeat split; auto. eauto.
    + destruct (add_results_extends results (OpenAlex.citations st)) as (more & E & Hm).
      destruct (add_results results (OpenAlex.citations st)) as [cs ok].
      simpl in E. subst cs.
      destruct ok; [destruct m as [next|]|].
      * intros H. destruct (IH _ H) as (more' & E' & Hm' & cursors & Ec).
        cbn [OpenAlex.citations sent] in *.
        exists (more ++ more')%list. rewrite E', <- app_assoc.
        repeat split; [now apply Forall_app|].
        exists (c :: cursors). rewrite Ec, <- app_assoc. reflexivity.
      * intros [= <-]. cbn [OpenAlex.citations sent]. eauto.
      * intros [= <-]. cbn [OpenAlex.citations sent]. eauto.
Qed.

(** X11: given the passes of the cap, the OpenAlex adapter returns
    whatever the source answers and wherever the loop ends, and every
    record it returns carries the tag [OpenAlex] and an identifier in
    canonical form, and no author of it has the empty name. *)
Theorem openalex_records_are_well_formed
    (source : nat -> string -> OpenAlex.reply) (work_data : option found) (fuel : nat) :
  max_pages <= fuel ->
  exists citations,
    get_citations_from_openalex source work_data fuel = Some citations /\
    Forall from_openalex citations.
Proof.
  intros Hf. unfold get_citations_from_openalex.
  destruct work_data as [[n|]|]; [| exists []; split; [reflexivity | constructor]..].
  destruct (n =? 0)%Z; [exists []; split; [reflexivity | constructor]|].
  assert (H0 : page_count start <= max_pages) by (unfold max_pages; simpl; lia).
  assert (H1 : max_pages - page_count start <= fuel)
    by (unfold max_pages in *; simpl; lia).
  destruct (while_terminates source fuel start eq_refl H0 H1) as (st' & E & _).
  rewrite E. destruct (while_extends _ _ _ _ E) as (more & Em & Hm & _).
  exists (OpenAlex.citations st'). split; [reflexivity|].
  rewrite Em. exact Hm.
Qed.

Lemma openalex_records_are_well_formed_witness :
  get_citations_from_openalex source_two_pages (Some (Found 3%Z)) 50 =
    Some [mkCitation "10.1000/abc" (Some "T") ["A. Author"] "2020" "OpenAlex"] /\
  Forall from_openalex
    [mkCitation "10.1000/abc" (Some "T") ["A. Author"] "2020" "OpenAlex"].
Proof.
  destruct (openalex_records_are_well_formed source_two_pages (Some (Found 3%Z)) 50)
    as (cs & E & F); [unfold max_pages; lia|].
  assert (E' : get_citations_from_openalex source_two_pages (Some (Found 3%Z)) 50 =
               Some [mkCitation "10.1000/abc" (Some "T") ["A. Author"] "2020" "OpenAlex"])
    by (vm_compute; reflexivity).
  split; [exact E'|]. rewrite E' in E. injection E as <-. exact F.
Defined.

(** X12: the pagination loop only adds to what it has gathered: entered
    with the pages counted so far as the requests sent and given the
    passes left up to the cap, it ends, be it by the cap, a missing
    cursor, a page without data or an exception, and the records held
    when it was entered are still there, in place, followed by records
    of the adapter's form; so are the cursors sent. *)
Theorem openalex_loop_keeps_what_it_gathered
    (source : nat -> string -> OpenAlex.reply) (fuel : nat) (st : state) :
  List.length (sent st) = page_count st ->
  page_count st <= max_pages ->
  max_pages - page_count st <= fuel ->
  exists st' more cursors,
    OpenAlex.while source fuel st = Some st' /\
    OpenAlex.citations st' = (OpenAlex.citations st ++ more)%list /\
    Forall from_openalex more /\
    sent st' = (sent st ++ cursors)%list.
Proof.
  intros Hs Hle Hf.
  destruct (while_terminates source fuel st Hs Hle Hf) as (st' & H & _).
  destruct (while_extends _ _ _ _ H) as (more & E & Hm & cursors & Ec).
  exists st', more, cursors. auto.
Qed.

Lemma openalex_loop_keeps_what_it_gathered_witness :
  exists st' more cursors,
    OpenAlex.while source_two_pages 49
      (mkState [mkCitation "10.1000/held" None [] "" "OpenAlex"] (Some "c1") 1 ["*"]) =
      Some st' /\
    OpenAlex.citations st' =
      (mkCitation "10.1000/held" None [] "" "OpenAlex" :: more)%list /\
    Forall from_openalex more /\
    sent st' = ("*" :: cursors)%list.
Proof.
  apply (openalex_loop_keeps_what_it_gathered source_two_pages 49
           (mkState [mkCitation "10.1000/held" None [] "" "OpenAlex"] (Some "c1") 1 ["*"]));
    unfold max_pages; simpl; lia.
Defined.

Import OpenCitations.

Lemma add_items_extends data cs :
  exists more,
    add_items data cs = (cs ++ more)%list /\
    Forall from_opencitations more /\
    List.length more <= List.length data.
Proof.
  revert cs. induction data as [|[[raw|]|] data IH]; intros cs; simpl.
  - exists []. rewrite app_nil_r. auto.
  - destruct (nonempty raw).
    + destruct (normalize_doi raw) as [d|] eqn:E.
      * destruct (IH (cs ++ [mkCitation d (Some "") [] "" "OpenCitations"])%list)
          as (more & -> & Hm & Hl).
        eexists (_ :: more). rewrite <- app_assoc. split; [reflexivity|].
        split; [|simpl; lia]. constructor; [|exact Hm].
        repeat split; simpl; apply (normalize_doi_form _ _ E).
      * destruct (IH cs) as (more & -> & Hm & Hl). exists more. auto.
    + destruct (IH cs) as (more & -> & Hm & Hl). exists more. auto.
  - destruct (IH cs) as (more & -> & Hm & Hl). exists more. auto.
  - exists []. rewrite app_nil_r. repeat split; auto. simpl. lia.
Qed.

(** X13: every record the citation-index adapter returns carries the tag
    [OpenCitations] and an identifier in canonical form, and has no
    title, no author and no year, so that the enrichment stage looks
    each of them up; there are no more records than elements in the
    payload, and no payload gives no record. *)
Theorem opencitations_records_are_bare (data : option (list item)) :
  Forall (fun r => from_opencitations r /\ Enrich.incomplete r = true)
    (get_citations_from_opencitations data) /\
  List.length (get_citations_from_opencitations data) <=
    List.length (match data with Some d => d | None => [] end) /\
  (data = None \/ data = Some [] -> get_citations_from_opencitations data = []).
Proof.
  unfold get_citations_from_opencitations. destruct data as [d|].
  - destruct (add_items_extends d []) as (more & E & Hm & Hl).
    rewrite E. simpl. repeat split; [| exact Hl |].
    + apply Forall_forall. intros r Hr. rewrite Forall_forall in Hm.
      split; [now apply Hm|]. destruct (Hm r Hr) as (_ & _ & Ht & Ha & Hy).
      unfold Enrich.incomplete. now rewrite Ht.
    + intros [H|[= ->]]; [discriminate|]. simpl in E. now rewrite <- E.
  - repeat split; auto.
Qed.

(** ** The merge: identifiers kept, lists without repetition, and the
       values that fill a record *)

Lemma first_by_doi_covers h cs c :
  In c cs -> exists l, In l (first_by_doi h cs) /\ doi (h l) = doi (h c).
Proof.
  induction cs as [|x cs IH]; simpl; [intros []|].
  intros [->|Hc]; [exists c; auto|].
  destruct (IH Hc) as (l & Hl & E).
  destruct (String.eqb (doi (h l)) (doi (h x))) eqn:Ex.
  - apply String.eqb_eq in Ex. exists x. split; [now left | congruence].
  - exists l. split; [|exact E]. right. apply filter_In. now rewrite Ex.
Qed.

Lemma first_by_doi_incl h cs : incl (first_by_doi h cs) cs.
Proof.
  induction cs as [|x cs IH]; simpl; [apply incl_refl|].
  intros l [->|Hl]; [now left|]. right. apply IH. now apply filter_In in Hl.
Qed.

Lemma first_by_doi_length h cs : List.length (first_by_doi h cs) <= List.length cs.
Proof.
  induction cs as [|x cs IH]; simpl; [lia|].
  pose proof (filter_length_le
                (fun y => negb (String.eqb (doi (h y)) (doi (h x)))) (first_by_doi h cs)).
  lia.
Qed.

(** X14: the merge loses no identifier and invents none: the records it
    returns are records it was given, no more of them than it was given,
    and an identifier is among theirs exactly when it is among those of
    the two lists. *)
Theorem merge_citations_keeps_every_doi
    (h : heap) (openalex_citations opencitations_citations : list loc) :
  let every := (openalex_citations ++ opencitations_citations)%list in
  let out := fst (merge_citations h openalex_citations opencitations_citations) in
  let h' := snd (merge_citations h openalex_citations opencitations_citations) in
  incl out every /\
  List.length out <= List.length every /\
  (forall d, In d (map (fun l => doi (h' l)) out) <->
             In d (map (fun l => doi (h l)) every)).
Proof.
  cbv zeta. rewrite merge_citations_out.
  split; [apply first_by_doi_incl|]. split; [apply first_by_doi_length|].
  intros d. rewrite !in_map_iff. split.
  - intros (l & E & Hl). exists l. split; [|now apply first_by_doi_incl in Hl].
    rewrite <- E, merge_citations_eq. symmetry. apply add_to_merged_doi.
  - intros (c & E & Hc).
    destruct (first_by_doi_covers h _ c Hc) as (l & Hl & El).
    exists l. split; [|exact Hl].
    rewrite merge_citations_eq. cbn [snd]. rewrite add_to_merged_doi. congruence.
Qed.

Lemma first_by_doi_distinct h cs :
  NoDup (map (fun l => doi (h l)) cs) -> first_by_doi h cs = cs.
Proof.
  induction cs as [|x cs IH]; simpl; [reflexivity|].
  intros Hn. inversion Hn as [|? ? Hx Hn']; subst. rewrite IH by exact Hn'.
  f_equal. rewrite <- (filter_all cs) at 2. apply filter_ext_in.
  intros y Hy. apply negb_true_iff, String.eqb_neq. intros E.
  apply Hx. rewrite <- E. now apply (in_map (fun l => doi (h l))).
Qed.

Lemma nodup_map_inj {A B : Type} (f : A -> B) l x y :
  NoDup (map f l) -> In x l -> In y l -> f x = f y -> x = y.
Proof.
  induction l as [|a l IH]; simpl; [intros _ []|].
  intros Hn. inversion Hn as [|? ? Ha Hn']; subst.
  intros [->|Hx] [->|Hy] E; auto.
  - exfalso. apply Ha. rewrite E. now apply in_map.
  - exfalso. apply Ha. rewrite <- E. now apply in_map.
Qed.

Lemma citation_eq (r r' : citation) :
  doi r = doi r' -> title r = title r' -> authors r = authors r' ->
  year r = year r' -> source r = source r' -> r = r'.
Proof. destruct r, r'. simpl. congruence. Qed.

Lemma merge_distinct_unchanged h cs :
  NoDup (map (fun l => doi (h l)) cs) ->
  forall l, snd (add_to_merged (OrderedDict.empty, h) cs) l = h l.
Proof.
  intros Hn l.
  pose proof (merge_inv_add_to_merged h cs cs OrderedDict.empty h
                (merge_inv_start h cs) (incl_refl _)) as I.
  destruct (in_dec Nat.eq_dec l
              (OrderedDict.values (fst (add_to_merged (OrderedDict.empty, h) cs))))
    as [Hl|Hl]; [|now apply (inv_frame _ _ _ _ I)].
  assert (Hin : In l cs).
  { unfold OrderedDict.values in Hl. apply in_map_iff in Hl as ([k x] & E & Hx).
    simpl in E. subst x. now apply (inv_entry _ _ _ _ I) in Hx. }
  assert (K : forall (A : Type) (has : A -> bool) (field : citation -> A) h',
             kept h cs has field h' -> field (h' l) = field (h l)).
  { intros A has field h' Hk. destruct (Hk l) as [E|(_ & c & Hc & Hne & Hd & _)];
      [exact E|]. exfalso. apply Hne.
    now apply (nodup_map_inj (fun l => doi (h l)) cs). }
  apply citation_eq.
  - apply (inv_doi _ _ _ _ I).
  - apply (K _ has_title title). apply (inv_title _ _ _ _ I).
  - apply (K _ has_authors authors). apply (inv_authors _ _ _ _ I).
  - apply (K _ has_year year). apply (inv_year _ _ _ _ I).
  - apply (inv_source _ _ _ _ I).
Qed.

(** X15: lists whose identifiers are pairwise distinct are merged into
    their concatenation and no record is changed; so merging what a
    merge returned, with nothing, returns the same list and changes no
    record. *)
Theorem merge_citations_of_distinct_is_identity
    (h : heap) (openalex_citations opencitations_citations : list loc) :
  (NoDup (map (fun l => doi (h l)) (openalex_citations ++ opencitations_citations)%list) ->
   fst (merge_citations h openalex_citations opencitations_citations) =
     (openalex_citations ++ opencitations_citations)%list /\
   forall l, snd (merge_citations h openalex_citations opencitations_citations) l = h l) /\
  (let out := fst (merge_citations h openalex_citations opencitations_citations) in
   let h' := snd (merge_citations h openalex_citations opencitations_citations) in
   fst (merge_citations h' out []) = out /\
   forall l, snd (merge_citations h' out []) l = h' l).
Proof.
  assert (G : forall h xs ys,
             NoDup (map (fun l => doi (h l)) (xs ++ ys)%list) ->
             fst (merge_citations h xs ys) = (xs ++ ys)%list /\
             forall l, snd (merge_citations h xs ys) l = h l).
  { intros h0 xs ys Hn. split.
    - rewrite merge_citations_out. now apply first_by_doi_distinct.
    - intros l. rewrite merge_citations_eq. now apply merge_distinct_unchanged. }
  split; [apply G|]. cbv zeta.
  set (out := fst (merge_citations h openalex_citations opencitations_citations)).
  set (h' := snd (merge_citations h openalex_citations opencitations_citations)).
  destruct (G h' out []) as [Ho Hh]; [|rewrite app_nil_r in Ho; auto].
  rewrite app_nil_r. unfold out, h'.
  rewrite (map_ext _ (fun l => doi (h l)))
    by (intros l; rewrite merge_citations_eq; apply add_to_merged_doi).
  rewrite merge_citations_out, first_by_doi_dois. apply first_seen_nodup.
Qed.

Lemma merge_citations_of_distinct_is_identity_witness :
  fst (merge_citations heap_to_enrich [0; 1] [2]) = [0; 1; 2] /\
  forall l, snd (merge_citations heap_to_enrich [0; 1] [2]) l = heap_to_enrich l.
Proof.
  destruct (merge_citations_of_distinct_is_identity heap_to_enrich [0; 1] [2]) as [H _].
  apply H. simpl.
  repeat constructor; simpl; intuition discriminate.
Defined.

Lemma fold_merged_field {A : Type} (has : A -> bool) (field : citation -> A) :
  (forall r r', field (merged_record r r') =
                if negb (has (field r)) && has (field r') then field r' else field r) ->
  forall rs r,
    field (fold_left merged_record rs r) =
    first_nonempty has (field r :: map field rs) (field r).
Proof.
  intros Hf rs. induction rs as [|r1 rs IH]; intros r.
  - unfold first_nonempty. simpl. destruct (has (field r)); reflexivity.
  - cbn [fold_left map]. rewrite IH, Hf. unfold first_nonempty. cbn [find].
    destruct (has (field r)) eqn:Hr; cbn [negb andb]; [now rewrite Hr|].
    destruct (has (field r1)) eqn:Hr1; [now rewrite Hr1|]. now rewrite Hr.
Qed.

Lemma nodup_app_disjoint {A : Type} (l l' : list A) :
  NoDup (l ++ l') -> forall a, In a l -> ~ In a l'.
Proof.
  induction l as [|x l IH]; simpl; [intros _ a []|].
  intros Hn. inversion Hn as [|? ? Hx Hn']; subst.
  intros a [->|Ha] Hin; [apply Hx, in_or_app; now right|].
  now apply (IH Hn' a).
Qed.

(** An entry of the dictionary through the passes that follow: its
    record is merged with each later record of its doi, in order. *)
Lemma add_to_merged_entry cs :
  forall m hc d e,
    OrderedDict.get m d = Some e ->
    (forall k x, In (k, x) m -> doi (hc x) = k) ->
    (forall c, In c cs -> c <> e) ->
    (forall c, In c cs -> doi (hc c) = d -> ~ In c (OrderedDict.values m)) ->
    snd (add_to_merged (m, hc) cs) e =
    fold_left merged_record
      (map hc (filter (fun c => String.eqb (doi (hc c)) d) cs)) (hc e).
Proof.
  unfold add_to_merged.
  induction cs as [|c cs IH]; intros m hc d e Hg Hk Hne Hv; [reflexivity|].
  cbn [fold_left add_one filter].
  assert (Hrest : forall c', In c' cs -> c' <> e) by (intros c' Hc'; apply Hne; now right).
  destruct (OrderedDict.get m (doi (hc c))) as [e'|] eqn:Eg.
  - assert (He' : In e' (OrderedDict.values m))
      by (apply get_in in Eg; apply (in_map snd _ _ Eg)).
    assert (Hother : forall c', In c' cs -> doi (hc c') = d -> c' <> e').
    { intros c' Hc' Hd ->. apply (Hv e'); auto. now right. }
    etransitivity.
    { apply (IH m (backfill hc e' c) d e); auto.
      - intros k x Hx. rewrite doi_backfill. now apply Hk.
      - intros c' Hc' Hd. rewrite doi_backfill in Hd. apply Hv; auto. now right. }
    rewrite (filter_ext _ (fun c0 => String.eqb (doi (hc c0)) d))
      by (intros x; now rewrite doi_backfill).
    rewrite (map_ext_in _ hc).
    2:{ intros x Hx. apply filter_In in Hx as [Hx Hd]. apply String.eqb_eq in Hd.
        apply backfill_other. now apply Hother. }
    destruct (String.eqb (doi (hc c)) d) eqn:Ed.
    + apply String.eqb_eq in Ed. rewrite Ed, Hg in Eg. injection Eg as <-.
      cbn [map fold_left]. now rewrite backfill_at.
    + rewrite backfill_other; [reflexivity|]. intros <-.
      apply String.eqb_neq in Ed. apply Ed.
      rewrite <- (Hk _ _ (get_in _ _ _ Hg)). symmetry.
      apply (Hk _ _ (get_in _ _ _ Eg)).
  - assert (Ed : String.eqb (doi (hc c)) d = false).
    { apply String.eqb_neq. intros E. rewrite E in Eg. congruence. }
    rewrite Ed. rewrite (get_none_set _ _ _ Eg).
    apply (IH (m ++ [(doi (hc c), c)])%list hc d e); auto.
    + rewrite <- (get_none_set _ _ _ Eg), get_set_other; [exact Hg|].
      now apply String.eqb_neq.
    + intros k x Hx. apply in_app_iff in Hx as [Hx|[[= <- <-]|[]]]; auto.
    + intros c' Hc' Hd. unfold OrderedDict.values. rewrite map_app, in_app_iff.
      simpl. intros [Hin|[<-|[]]]; [apply (Hv c'); auto; now right|].
      apply String.eqb_neq in Ed. congruence.
Qed.

(** X16: over records that are pairwise distinct objects, the record
    returned for a doi is the first record of that doi merged, in order,
    with each later record of that doi; its title is the first non-empty
    title among them, and likewise its authors and its year. *)
Theorem merge_citations_fills_from_first_nonempty
    (h : heap) (openalex_citations opencitations_citations : list loc)
    (pre : list loc) (l : loc) (post : list loc) :
  NoDup (openalex_citations ++ opencitations_citations)%list ->
  (openalex_citations ++ opencitations_citations)%list = (pre ++ l :: post)%list ->
  (forall x, In x pre -> doi (h x) <> doi (h l)) ->
  let h' := snd (merge_citations h openalex_citations opencitations_citations) in
  let later := filter (fun c => String.eqb (doi (h c)) (doi (h l))) post in
  h' l = fold_left merged_record (map h later) (h l) /\
  title (h' l) =
    first_nonempty has_title (map (fun c => title (h c)) (l :: later)) (title (h l)) /\
  authors (h' l) =
    first_nonempty has_authors (map (fun c => authors (h c)) (l :: later)) (authors (h l)) /\
  year (h' l) =
    first_nonempty has_year (map (fun c => year (h c)) (l :: later)) (year (h l)).
Proof.
  intros Hn E Hpre. cbv zeta.
  rewrite merge_citations_eq, E in *. cbn [snd].
  assert (Hl : ~ In l pre).
  { intros Hin. apply (nodup_app_disjoint _ _ Hn l Hin). now left. }
  assert (Hpost : forall c, In c post -> ~ In c pre /\ c <> l).
  { intros c Hc. split.
    - intros Hin. apply (nodup_app_disjoint _ _ Hn c Hin). now right.
    - intros ->. apply NoDup_remove_2 in Hn. apply Hn, in_or_app. now right. }
  change (pre ++ l :: post)%list with (pre ++ [l] ++ post)%list.
  rewrite <- !add_to_merged_app.
  pose proof (merge_inv_add_to_merged h pre pre OrderedDict.empty h
                (merge_inv_start h pre) (incl_refl _)) as I.
  destruct (add_to_merged (OrderedDict.empty, h) pre) as [m1 h1]. cbn [fst snd] in I.
  assert (Hval : forall x, In x (OrderedDict.values m1) -> In x pre).
  { intros x Hx. unfold OrderedDict.values in Hx.
    apply in_map_iff in Hx as ([k y] & Ey & Hy). simpl in Ey. subst y.
    now apply (inv_entry _ _ _ _ I) in Hy. }
  assert (Hfr : forall x, ~ In x pre -> h1 x = h x).
  { intros x Hx. apply (inv_frame _ _ _ _ I). intros Hin. now apply Hx, Hval. }
  assert (Hnone : OrderedDict.get m1 (doi (h1 l)) = None).
  { destruct (OrderedDict.get m1 (doi (h1 l))) as [e|] eqn:Eg; [|reflexivity].
    apply get_in in Eg. destruct (inv_entry _ _ _ _ I _ _ Eg) as [Hd Hin].
    exfalso. apply (Hpre e Hin). rewrite Hd. apply (inv_doi _ _ _ _ I). }
  assert (Hstep : add_to_merged (m1, h1) [l] = (OrderedDict.set m1 (doi (h1 l)) l, h1))
    by (unfold add_to_merged; cbn [fold_left add_one]; now rewrite Hnone).
  rewrite Hstep.
  assert (Hfold :
            snd (add_to_merged (OrderedDict.set m1 (doi (h1 l)) l, h1) post) l =
            fold_left merged_record
              (map h (filter (fun c => String.eqb (doi (h c)) (doi (h l))) post)) (h l)).
  { rewrite (add_to_merged_entry post _ h1 (doi (h1 l)) l).
    - rewrite !(Hfr l Hl).
      rewrite (filter_ext_in (fun c => String.eqb (doi (h1 c)) (doi (h l)))
                 (fun c => String.eqb (doi (h c)) (doi (h l))))
        by (intros c Hc; rewrite Hfr; [reflexivity | now apply Hpost]).
      rewrite (map_ext_in h1 h); [reflexivity|].
      intros c Hc. apply filter_In in Hc as [Hc _]. apply Hfr. now apply Hpost.
    - apply get_set_same.
    - intros k x Hx. rewrite (get_none_set _ _ _ Hnone) in Hx.
      apply in_app_iff in Hx as [Hx|[[= <- <-]|[]]]; [|reflexivity].
      rewrite (inv_doi _ _ _ _ I). now apply (inv_entry _ _ _ _ I) in Hx.
    - intros c Hc. now apply Hpost.
    - intros c Hc _. rewrite (get_none_set _ _ _ Hnone).
      unfold OrderedDict.values. rewrite map_app, in_app_iff. simpl.
      intros [Hin|[<-|[]]].
      + apply (proj1 (Hpost c Hc)). now apply Hval.
      + now apply (proj2 (Hpost l Hc)). }
  rewrite Hfold. split; [reflexivity|].
  rewrite (fold_merged_field has_title title (fun _ _ => eq_refl)).
  rewrite (fold_merged_field has_authors authors (fun _ _ => eq_refl)).
  rewrite (fold_merged_field has_year year (fun _ _ => eq_refl)).
  cbn [map]. rewrite !map_map. repeat split.
Qed.

Lemma merge_citations_fills_from_first_nonempty_witness :
  snd (merge_citations heap_three_sources [0; 1] [2]) 0 =
    mkCitation "10.1000/a" (Some "T1") ["B. Author"] "" "OpenAlex".
Proof.
  destruct (merge_citations_fills_from_first_nonempty heap_three_sources [0; 1] [2]
              [] 0 [1; 2]) as [H _].
  - repeat constructor; simpl; intuition discriminate.
  - reflexivity.
  - intros x [].
  - rewrite H. reflexivity.
Defined.

(** ** The enrichment stage: what a run keeps, its log, and a second run *)

Lemma preserved_refl h : preserved h h.
Proof. intros l. auto. Qed.

Lemma preserved_trans h1 h2 h3 : preserved h1 h2 -> preserved h2 h3 -> preserved h1 h3.
Proof.
  intros H12 H23 l.
  destruct (H12 l) as (Hd & Hs & Ht & Ha & Hy).
  destruct (H23 l) as (Hd' & Hs' & Ht' & Ha' & Hy').
  repeat split; try congruence.
  - intros H. rewrite Ht', Ht; auto. now rewrite Ht.
  - intros H. rewrite Ha', Ha; auto. now rewrite Ha.
  - intros H. rewrite Hy', Hy; auto. now rewrite Hy.
Qed.

Lemma preserved_filled r md :
  doi (filled_record r md) = doi r /\ source (filled_record r md) = source r /\
  (has_title (title r) = true -> title (filled_record r md) = title r) /\
  (has_authors (authors r) = true -> authors (filled_record r md) = authors r) /\
  (has_year (year r) = true -> year (filled_record r md) = year r).
Proof.
  destruct md as [[t a] y], r as [d t' a' y' s]. unfold filled_record. cbn.
  repeat split; intros ->; now rewrite andb_false_r.
Qed.

Lemma requests_of_app l1 l2 :
  requests_of (l1 ++ l2) = (requests_of l1 ++ requests_of l2)%list.
Proof. induction l1 as [|[| |] l1 IH]; simpl; rewrite ?IH; reflexivity. Qed.

Lemma progress_of_app l1 l2 :
  progress_of (l1 ++ l2) = (progress_of l1 ++ progress_of l2)%list.
Proof. induction l1 as [|[| |] l1 IH]; simpl; rewrite ?IH; reflexivity. Qed.

Section EnrichMore.
Variable crossref : nat -> string -> Enrich.reply.
Variable progress_callback : bool.

Lemma enrich_one_keeps total i c h log :
  preserved h (fst (enrich_one crossref progress_callback total i c (h, log))) /\
  exists ds,
    List.length ds <= 1 /\
    lookups (snd (enrich_one crossref progress_callback total i c (h, log))) =
      (lookups log ++ ds)%list /\
    requests_of (snd (enrich_one crossref progress_callback total i c (h, log))) =
      (requests_of log ++ flat_map (fun d => [Lookup d; Delay]) ds)%list /\
    progress_of (snd (enrich_one crossref progress_callback total i c (h, log))) =
      (progress_of log ++ if progress_callback then [Progress (i + 1) total] else [])%list.
Proof.
  unfold enrich_one. destruct (incomplete (h c)); cbn [fst snd].
  - split.
    + intros l. destruct (Nat.eq_dec l c) as [->|Hl].
      * rewrite fill_at. apply preserved_filled.
      * rewrite fill_other by exact Hl. auto.
    + exists [doi (h c)]. split; [simpl; lia|].
      destruct progress_callback;
        rewrite ?lookups_app, ?requests_of_app, ?progress_of_app; simpl;
        rewrite ?app_nil_r; auto.
  - split; [apply preserved_refl|]. exists []. split; [simpl; lia|].
    destruct progress_callback;
      rewrite ?lookups_app, ?requests_of_app, ?progress_of_app; simpl;
      rewrite ?app_nil_r; auto.
Qed.

Lemma enrich_from_keeps cs total i h log :
  preserved h (fst (enrich_from crossref progress_callback total i cs (h, log))) /\
  exists ds,
    List.length ds <= List.length cs /\
    lookups (snd (enrich_from crossref progress_callback total i cs (h, log))) =
      (lookups log ++ ds)%list /\
    requests_of (snd (enrich_from crossref progress_callback total i cs (h, log))) =
      (requests_of log ++ flat_map (fun d => [Lookup d; Delay]) ds)%list /\
    progress_of (snd (enrich_from crossref progress_callback total i cs (h, log))) =
      (progress_of log ++
       if progress_callback
       then map (fun j => Progress (j + 1) total) (seq i (List.length cs))
       else [])%list.
Proof.
  revert i h log. induction cs as [|c cs IH]; intros i h log.
  - simpl. split; [apply preserved_refl|]. exists [].
    destruct progress_callback; simpl; rewrite ?app_nil_r; auto.
  - cbn [enrich_from].
    destruct (enrich_one_keeps total i c h log) as (P1 & d1 & L1 & K1 & R1 & G1).
    destruct (enrich_one crossref progress_callback total i c (h, log)) as [h1 log1].
    cbn [fst snd] in *.
    destruct (IH (S i) h1 log1) as (P2 & d2 & L2 & K2 & R2 & G2).
    split; [eapply preserved_trans; eauto|].
    exists (d1 ++ d2)%list. rewrite K2, R2, G2, K1, R1, G1, length_app, flat_map_app.
    rewrite <- !app_assoc. repeat split; [simpl; lia|].
    destruct progress_callback; simpl; rewrite ?app_nil_r; reflexivity.
Qed.

End EnrichMore.

(** X17: whatever the lookups return and whether or not a record comes
    twice, a run of [enrich_citation_metadata] changes no doi, no source
    tag and no field that was not empty; it makes at most one lookup per
    record of the list, and every lookup is followed by the delay. *)
Theorem enrich_keeps_what_is_there
    (crossref : nat -> string -> Enrich.reply) (progress_callback : bool)
    (h : heap) (citations : list loc) :
  let run := enrich_citation_metadata crossref progress_callback h citations in
  preserved h (fst (snd run)) /\
  List.length (lookups (snd (snd run))) <= List.length citations /\
  requests_of (snd (snd run)) =
    flat_map (fun d => [Lookup d; Delay]) (lookups (snd (snd run))).
Proof.
  cbv zeta. unfold enrich_citation_metadata. cbn [fst snd].
  destruct (enrich_from_keeps crossref progress_callback citations
              (List.length citations) 0 h []) as (P & ds & L & K & R & _).
  rewrite K, R. simpl. auto.
Qed.

(** X18: the progress callback, when one is given, is called once for
    each record of the list, in order, with the number of the record,
    counted from one, and the length of the list; it is never called
    when none is given. *)
Theorem enrich_reports_progress
    (crossref : nat -> string -> Enrich.reply) (progress_callback : bool)
    (h : heap) (citations : list loc) :
  progress_of (snd (snd (enrich_citation_metadata crossref progress_callback h citations))) =
  if progress_callback
  then map (fun j => Progress (j + 1) (List.length citations))
         (seq 0 (List.length citations))
  else [].
Proof.
  unfold enrich_citation_metadata. cbn [fst snd].
  destruct (enrich_from_keeps crossref progress_callback citations
              (List.length citations) 0 h []) as (_ & ds & _ & _ & _ & G).
  rewrite G. reflexivity.
Qed.

Lemma filled_record_complete r md :
  complete_metadata md = true -> incomplete (filled_record r md) = false.
Proof.
  destruct md as [[t a] y], r as [d t' a' y' s]. unfold complete_metadata.
  intros H. apply andb_true_iff in H as [H Hy]. apply andb_true_iff in H as [Ht Ha].
  unfold incomplete, filled_record. cbn. rewrite Ht, Ha, Hy. cbn.
  destruct (has_title t') eqn:Et, (has_authors a') eqn:Ea, (has_year y') eqn:Ey; cbn;
    rewrite ?Ht, ?Ha, ?Hy, ?Et, ?Ea, ?Ey; reflexivity.
Qed.

Lemma filter_none {A : Type} (l : list A) : filter (fun _ => false) l = [].
Proof. induction l as [|x l IH]; simpl; auto. Qed.

(** X19: over records that are pairwise distinct, when every lookup made
    finds a title, an author and a year, every record of the list is
    complete after the run; a second run over the list then makes no
    lookup and changes no record, whatever the lookups would return. *)
Theorem enrich_completes_and_settles
    (crossref : nat -> string -> Enrich.reply) (progress_callback : bool)
    (h : heap) (citations : list loc) :
  NoDup citations ->
  (forall j c,
      nth_error citations j = Some c -> incomplete (h c) = true ->
      complete_metadata (get_metadata_from_crossref (crossref j (doi (h c)))) = true) ->
  let h' := fst (snd (enrich_citation_metadata crossref progress_callback h citations)) in
  (forall c, In c citations -> incomplete (h' c) = false) /\
  (forall crossref' progress_callback',
      lookups (snd (snd (enrich_citation_metadata crossref' progress_callback'
                           h' citations))) = [] /\
      forall l, fst (snd (enrich_citation_metadata crossref' progress_callback'
                            h' citations)) l = h' l).
Proof.
  intros Hn Hc. cbv zeta. unfold enrich_citation_metadata. cbn [fst snd].
  destruct (enrich_from_distinct crossref progress_callback citations
              (List.length citations) 0 h [] Hn) as (_ & _ & Ha).
  set (h' := fst (enrich_from crossref progress_callback (List.length citations) 0
                    citations (h, []))) in *.
  assert (Hdone : forall c, In c citations -> incomplete (h' c) = false).
  { intros c Hin. apply In_nth_error in Hin as [j Hj].
    rewrite (Ha j c Hj). destruct (incomplete (h c)) eqn:E; [|exact E].
    apply filled_record_complete. now apply Hc. }
  split; [exact Hdone|]. intros crossref' progress_callback'.
  destruct (enrich_from_distinct crossref' progress_callback' citations
              (List.length citations) 0 h' [] Hn) as (Hl' & Ho' & Ha').
  split.
  - rewrite Hl'. simpl.
    rewrite (filter_ext_in _ (fun _ => false)) by (intros c Hin; now apply Hdone).
    now rewrite filter_none.
  - intros l. destruct (in_dec Nat.eq_dec l citations) as [Hin|Hout]; [|now apply Ho'].
    pose proof Hin as Hin'. apply In_nth_error in Hin' as [j Hj].
    rewrite (Ha' j l Hj), (Hdone l Hin). reflexivity.
Qed.

Lemma enrich_completes_and_settles_witness :
  incomplete
    (fst (snd (enrich_citation_metadata crossref_example true heap_to_enrich [0; 1])) 1) =
  false.
Proof.
  destruct (enrich_completes_and_settles crossref_example true heap_to_enrich [0; 1])
    as [H _].
  - repeat constructor; simpl; intuition discriminate.
  - intros j c E Hi. destruct j as [|[|j]]; simpl in E.
    + injection E as <-. discriminate Hi.
    + injection E as <-. reflexivity.
    + destruct j; discriminate E.
  - apply H. simpl. auto.
Defined.

(** ** One identifier through the pipeline *)

Import Pipeline.

Lemma alloc_spec records :
  forall h next,
    snd (alloc h next records) = seq next (List.length records) /\
    map (fst (alloc h next records)) (seq next (List.length records)) = records /\
    (forall l, l < next \/ next + List.length records <= l ->
               fst (alloc h next records) l = h l).
Proof.
  induction records as [|r rest IH]; intros h next; simpl; [auto|].
  destruct (IH (store h next r) (S next)) as (Hs & Hm & Hf).
  destruct (alloc (store h next r) (S next) rest) as [h' ls]. simpl in *.
  subst ls. repeat split.
  - rewrite Hm, Hf by lia. now rewrite store_same.
  - intros l Hl. rewrite Hf by lia. apply store_other. lia.
Qed.

(** X20: [process_single_doi] returns one record for each identifier the
    two adapters returned, in the order these identifiers first come,
    OpenAlex first; it looks up no more records than it returns; with
    nothing from either adapter it returns nothing and looks nothing up;
    and it changes no record that was there before. *)
Theorem process_single_doi_returns_each_doi_once
    (crossref : nat -> string -> Enrich.reply) (h : heap) (next : loc)
    (openalex_citations opencitations_citations : list citation) :
  let run := process_single_doi crossref h next openalex_citations opencitations_citations in
  let h' := fst (snd run) in
  map (fun l => doi (h' l)) (fst run) =
    first_seen (map doi (openalex_citations ++ opencitations_citations)%list) /\
  NoDup (map (fun l => doi (h' l)) (fst run)) /\
  List.length (lookups (snd (snd run))) <= List.length (fst run) /\
  (openalex_citations = [] -> opencitations_citations = [] ->
   fst run = [] /\ snd (snd run) = []) /\
  (forall l, l < next -> h' l = h l).
Proof.
  cbv zeta. unfold process_single_doi.
  destruct (alloc_spec openalex_citations h next) as (Hs1 & Hm1 & Hf1).
  destruct (alloc h next openalex_citations) as [h1 oa]. cbn [fst snd] in *.
  destruct (alloc_spec opencitations_citations h1 (next + List.length openalex_citations))
    as (Hs2 & Hm2 & Hf2).
  destruct (alloc h1 (next + List.length openalex_citations) opencitations_citations)
    as [h2 oc]. cbn [fst snd] in *.
  assert (Hdois : map (fun l => doi (h2 l)) (oa ++ oc)%list =
                  map doi (openalex_citations ++ opencitations_citations)%list).
  { rewrite !map_app, <- !(map_map h2 doi). subst oa oc. rewrite Hm2. do 2 f_equal.
    rewrite <- Hm1 at 2. apply map_ext_in. intros l Hl. apply in_seq in Hl.
    apply Hf2. lia. }
  assert (Hlocs : forall l, In l (oa ++ oc)%list -> next <= l).
  { intros l Hl. subst oa oc. apply in_app_iff in Hl as [Hl|Hl]; apply in_seq in Hl; lia. }
  pose proof (merge_citations_out h2 oa oc) as Hout.
  pose proof (merge_inv_add_to_merged h2 (oa ++ oc)%list (oa ++ oc)%list
                OrderedDict.empty h2 (merge_inv_start h2 _) (incl_refl _)) as I.
  rewrite merge_citations_eq in *.
  destruct (add_to_merged (OrderedDict.empty, h2) (oa ++ oc)) as [m h3] eqn:Em.
  cbn [fst snd] in *.
  assert (Hd3 : map (fun l => doi (h3 l)) (OrderedDict.values m) =
                first_seen (map doi (openalex_citations ++ opencitations_citations)%list)).
  { rewrite (map_ext _ (fun l => doi (h2 l)) (inv_doi _ _ _ _ I)), Hout.
    now rewrite first_by_doi_dois, Hdois. }
  assert (Hfr3 : forall l, l < next -> h3 l = h l).
  { intros l Hl. rewrite (inv_frame _ _ _ _ I).
    - rewrite Hf2, Hf1 by lia. reflexivity.
    - rewrite Hout. intros Hin. apply first_by_doi_incl, Hlocs in Hin. lia. }
  assert (Hempty : openalex_citations = [] -> opencitations_citations = [] ->
                   OrderedDict.values m = []).
  { intros Ha Hb. rewrite Hout. subst oa oc. rewrite Ha, Hb. reflexivity. }
  remember (OrderedDict.values m) as out eqn:Ev.
  destruct out as [|c cs].
  - cbn [fst snd map]. rewrite <- Hd3. simpl. repeat split; auto; constructor.
  - unfold enrich_citation_metadata. cbn [fst snd].
    destruct (enrich_from_keeps crossref true (c :: cs)
                (List.length (c :: cs)) 0 h3 [])
      as (P & ds & L & K & _ & _).
    assert (Hd4 : forall l,
               doi (fst (enrich_from crossref true (List.length (c :: cs)) 0
                           (c :: cs) (h3, [])) l) = doi (h3 l))
      by (intros l; apply (P l)).
    rewrite (map_ext _ (fun l => doi (h3 l)) Hd4), Hd3.
    assert (Hn : NoDup (c :: cs)).
    { apply (NoDup_map_inv (fun l => doi (h3 l))). rewrite Hd3. apply first_seen_nodup. }
    destruct (enrich_from_distinct crossref true (c :: cs)
                (List.length (c :: cs)) 0 h3 [] Hn) as (_ & Ho & _).
    split; [reflexivity|]. split; [apply first_seen_nodup|].
    split; [rewrite K; simpl; exact L|].
    split; [intros Ha Hb; discriminate (Hempty Ha Hb)|].
    intros l Hl. rewrite Ho; [now apply Hfr3|].
    rewrite Hout. intros Hin. apply first_by_doi_incl, Hlocs in Hin. lia.
Qed.

(** ** The rows of the export *)

Import CsvExport.

Lemma filter_first_seen (K : list string) d X :
  filter (fun x => negb (existsb (String.eqb x) K))
    (filter (fun x => negb (String.eqb x d)) X) =
  filter (fun x => negb (existsb (String.eqb x) (d :: K))) X.
Proof.
  rewrite filter_filter. apply filter_ext. intros x. simpl.
  rewrite negb_orb. reflexivity.
Qed.

Lemma citation_rows_cells h q cs :
  forall seen,
    map citing_cell (citation_rows h q seen cs) =
    map Some (filter (fun x => negb (existsb (String.eqb x) seen))
                (first_seen (map (fun c => doi (h c)) cs))).
Proof.
  induction cs as [|c cs IH]; intros seen; [reflexivity|].
  cbn [citation_rows map first_seen filter].
  destruct (existsb (String.eqb (doi (h c))) seen) eqn:E; cbn [negb].
  - rewrite IH. f_equal. rewrite filter_filter. apply filter_ext_in. intros x _.
    destruct (String.eqb x (doi (h c))) eqn:Ex; [|reflexivity].
    apply String.eqb_eq in Ex. subst x. now rewrite E.
  - cbn [map citing_cell]. rewrite IH. do 2 f_equal.
    symmetry. apply filter_first_seen.
Qed.

Lemma citation_rows_shape h q cs :
  forall seen,
    Forall (fun r => List.length r = 5 /\ nth_error r 0 = Some (Some q))
      (citation_rows h q seen cs).
Proof.
  induction cs as [|c cs IH]; intros seen; simpl; [constructor|].
  destruct (existsb _ seen); [apply IH|]. constructor; [auto | apply IH].
Qed.

Lemma citation_rows_distinct h q cs :
  forall seen,
    NoDup (map (fun c => doi (h c)) cs) ->
    (forall c, In c cs -> existsb (String.eqb (doi (h c))) seen = false) ->
    citation_rows h q seen cs = map (row_of h q) cs.
Proof.
  induction cs as [|c cs IH]; intros seen Hn Hs; [reflexivity|].
  cbn [citation_rows map]. rewrite (Hs c) by now left.
  inversion Hn as [|? ? Hc Hn']; subst. f_equal. apply IH; [exact Hn'|].
  intros x Hx. simpl. rewrite (Hs x) by now right. rewrite orb_false_r.
  apply String.eqb_neq. intros E. apply Hc. rewrite <- E.
  now apply (in_map (fun c => doi (h c))).
Qed.

Lemma nodup_map_some {A : Type} (l : list A) : NoDup l -> NoDup (map Some l).
Proof.
  induction 1 as [|x l Hx Hn IH]; simpl; constructor; [|exact IH].
  rewrite in_map_iff. intros (y & [= ->] & Hy). contradiction.
Qed.

(** X21: in the export every identifier of the result mapping has at
    least one row, and every row has five cells, the first of them the
    queried identifier; under one identifier no citing doi is written
    twice; and when the citations of an identifier have pairwise
    distinct dois, as the merge leaves them, each has its row, in order,
    so the check against repetitions removes nothing. *)
Theorem export_rows_cover_the_results (h : heap) (queried_doi : string) (citations : list loc) :
  entry_rows h (queried_doi, citations) <> [] /\
  Forall (fun r => List.length r = 5 /\ nth_error r 0 = Some (Some queried_doi))
    (entry_rows h (queried_doi, citations)) /\
  (citations <> [] ->
   map citing_cell (entry_rows h (queried_doi, citations)) =
     map Some (first_seen (map (fun c => doi (h c)) citations)) /\
   NoDup (map citing_cell (entry_rows h (queried_doi, citations)))) /\
  (citations <> [] -> NoDup (map (fun c => doi (h c)) citations) ->
   entry_rows h (queried_doi, citations) = map (row_of h queried_doi) citations).
Proof.
  unfold entry_rows. cbn [fst snd].
  destruct citations as [|c cs].
  - repeat split; try discriminate; try contradiction.
    constructor; [auto | constructor].
  - split; [simpl; discriminate|]. split; [apply citation_rows_shape|]. split.
    + intros _. rewrite citation_rows_cells. cbn [existsb negb].
      rewrite filter_all. split; [reflexivity|].
      apply nodup_map_some, first_seen_nodup.
    + intros _ Hn. apply citation_rows_distinct; [exact Hn | reflexivity].
Qed.

Lemma export_rows_cover_the_results_witness :
  entry_rows heap_to_enrich ("10.1000/q", [0; 1; 2]) =
  map (row_of heap_to_enrich "10.1000/q") [0; 1; 2].
Proof.
  destruct (export_rows_cover_the_results heap_to_enrich "10.1000/q" [0; 1; 2])
    as (_ & _ & _ & H).
  apply H; [discriminate|]. simpl.
  repeat constructor; simpl; intuition discriminate.
Defined.

(** ** The identifiers [main] starts from and the keys of the results *)

Import Main.

Lemma keys_set_filter {V : Type} (m : OrderedDict.t V) d v X :
  (OrderedDict.keys (OrderedDict.set m d v) ++
   filter (fun x => negb (OrderedDict.has_key (OrderedDict.set m d v) x)) X)%list =
  (OrderedDict.keys m ++
   filter (fun x => negb (OrderedDict.has_key m x))
     (d :: filter (fun x => negb (String.eqb x d)) X))%list.
Proof.
  cbn [filter]. rewrite (has_key_get m d).
  destruct (OrderedDict.get m d) as [v0|] eqn:E; cbn [negb].
  - unfold OrderedDict.has_key. rewrite (keys_set_present _ _ _ _ E). f_equal.
    rewrite filter_filter. apply filter_ext_in. intros x _.
    destruct (String.eqb x d) eqn:Ex; [|reflexivity].
    apply String.eqb_eq in Ex. subst x.
    fold (OrderedDict.has_key m d). now rewrite has_key_get, E.
  - rewrite (get_none_set _ _ _ E). unfold OrderedDict.keys at 1.
    rewrite map_app, <- app_assoc. simpl. do 2 f_equal.
    rewrite filter_filter. apply filter_ext. intros x.
    rewrite has_key_app, negb_orb, andb_comm. f_equal. f_equal. apply String.eqb_sym.
Qed.

Lemma fromkeys_keys dois :
  forall m : OrderedDict.t unit,
    OrderedDict.keys (fold_left (fun m d => OrderedDict.set m d tt) dois m) =
    (OrderedDict.keys m ++
     filter (fun x => negb (OrderedDict.has_key m x)) (first_seen dois))%list.
Proof.
  induction dois as [|d dois IH]; intros m; simpl.
  - now rewrite app_nil_r.
  - rewrite IH. apply keys_set_filter.
Qed.

Lemma loop_keys_order process l :
  forall i results,
    OrderedDict.keys (loop process i l results) =
    (OrderedDict.keys results ++
     filter (fun x => negb (OrderedDict.has_key results x))
       (first_seen (processed process i l)))%list.
Proof.
  induction l as [|d l IH]; intros i results; simpl.
  - now rewrite app_nil_r.
  - destruct (process i d); simpl.
    + rewrite IH. apply keys_set_filter.
    + rewrite IH. apply keys_set_filter.
    + now rewrite app_nil_r.
Qed.

Lemma first_seen_distinct ds : NoDup ds -> first_seen ds = ds.
Proof.
  induction 1 as [|d ds Hd Hn IH]; simpl; [reflexivity|].
  rewrite IH. f_equal. rewrite <- (filter_all ds) at 2. apply filter_ext_in.
  intros x Hx. apply negb_true_iff, String.eqb_neq. intros ->. contradiction.
Qed.

Lemma first_seen_in ds d : In d (first_seen ds) <-> In d ds.
Proof.
  induction ds as [|x ds IH]; simpl; [tauto|].
  rewrite filter_In, IH, negb_true_iff, String.eqb_neq.
  destruct (string_dec x d) as [->|Hx]; [tauto|]. split; [tauto|].
  intros [E|Hd]; [contradiction|]. right. split; [exact Hd | congruence].
Qed.

Lemma processed_all process l :
  (forall i d, process i d <> RaisesKeyboardInterrupt) ->
  forall i, processed process i l = l.
Proof.
  intros H. induction l as [|d l IH]; intros i; simpl; [reflexivity|].
  destruct (process i d) eqn:E; rewrite ?IH; try reflexivity.
  exfalso. now apply (H i d).
Qed.

Lemma fromkeys_first_seen dois : OrderedDict.keys (fromkeys dois) = first_seen dois.
Proof. unfold fromkeys. rewrite fromkeys_keys. simpl. apply filter_all. Qed.

Lemma main_loop_first_seen process l :
  OrderedDict.keys (main_loop process l) = first_seen (processed process 1 l).
Proof. unfold main_loop. rewrite loop_keys_order. simpl. apply filter_all. Qed.

(** X22: [OrderedDict.fromkeys] keeps the first of each identifier, in
    order: the list [main] makes of a file's identifiers has each of
    them once, where it first came. *)
Theorem fromkeys_keeps_first (dois : list string) :
  OrderedDict.keys (fromkeys dois) = first_seen dois /\
  NoDup (OrderedDict.keys (fromkeys dois)) /\
  (forall d, In d (OrderedDict.keys (fromkeys dois)) <-> In d dois).
Proof.
  rewrite fromkeys_first_seen. split; [reflexivity|]. split; [apply first_seen_nodup|].
  intros d. apply first_seen_in.
Qed.

(** X23: the result mapping has one entry for each identifier whose pass
    was not interrupted, where that identifier first came, also when the
    list holds an identifier twice, as a Depositor Report may. *)
Theorem main_loop_keys_in_first_seen_order
    (process : nat -> string -> Orchestrator.outcome) (unique_dois : list string) :
  OrderedDict.keys (main_loop process unique_dois) =
    first_seen (processed process 1 unique_dois) /\
  NoDup (OrderedDict.keys (main_loop process unique_dois)) /\
  List.length (main_loop process unique_dois) <= List.length unique_dois.
Proof.
  pose proof (main_loop_first_seen process unique_dois) as E.
  split; [exact E|]. split; [rewrite E; apply first_seen_nodup|].
  rewrite <- (length_map fst). fold (OrderedDict.keys (main_loop process unique_dois)).
  rewrite E.
  assert (L : forall ds, List.length (first_seen ds) <= List.length ds).
  { induction ds as [|d ds IH]; simpl; [lia|].
    pose proof (filter_length_le (fun x => negb (String.eqb x d)) (first_seen ds)). lia. }
  assert (P : forall l i, List.length (processed process i l) <= List.length l).
  { induction l as [|d l IH]; intros i; simpl; [lia|].
    destruct (process i d); simpl; try (specialize (IH (S i))); lia. }
  specialize (L (processed process 1 unique_dois)). specialize (P unique_dois 1). lia.
Qed.

(** X24: an interrupt ends the loop and loses nothing: the result
    mapping is the one the passes before the interrupted one built, and
    no identifier after it is processed. *)
Theorem main_loop_interrupt_keeps_results
    (process : nat -> string -> Orchestrator.outcome)
    (pre : list string) (d : string) (post : list string) :
  processed process 1 pre = pre ->
  process (1 + List.length pre) d = RaisesKeyboardInterrupt ->
  main_loop process (pre ++ d :: post) = main_loop process pre /\
  processed process 1 (pre ++ d :: post) = pre.
Proof.
  intros Hp Hd. unfold main_loop. split.
  - rewrite loop_app by exact Hp. cbn [loop]. now rewrite Hd.
  - revert Hp Hd. generalize 1 as i.
    induction pre as [|e pre IH]; intros i Hp Hd.
    + cbn [Datatypes.length] in Hd. rewrite Nat.add_0_r in Hd.
      cbn [app processed]. now rewrite Hd.
    + cbn [app processed] in *. cbn [Datatypes.length] in Hd.
      replace (i + S (List.length pre)) with (S i + List.length pre) in Hd by lia.
      destruct (process i e); try discriminate Hp; injection Hp as Hp;
        f_equal; apply IH; assumption.
Qed.

Lemma main_loop_interrupt_keeps_results_witness :
  main_loop process_interrupted ["10.1000/a"; "10.1000/b"; "10.1000/c"] =
    [("10.1000/a", [4; 5])] /\
  processed process_interrupted 1 ["10.1000/a"; "10.1000/b"; "10.1000/c"] = ["10.1000/a"].
Proof.
  destruct (main_loop_interrupt_keeps_results process_interrupted
              ["10.1000/a"] "10.1000/b" ["10.1000/c"] eq_refl eq_refl) as [E P].
  split; [exact E | exact P].
Defined.

(** X25: from the identifiers read to the result mapping: when the
    operator confirms and no pass is interrupted, [main] ends with one
    entry for each identifier read, where it first came, whether the
    identifiers were deduplicated first (a file) or not (a Depositor
    Report); from a file each identifier is processed once. *)
Theorem main_results_have_each_identifier_once
    (process : nat -> string -> Orchestrator.outcome) (kind : input_kind)
    (dois : list string) (confirm : string) (results : OrderedDict.t (list loc)) :
  (forall i d, process i d <> RaisesKeyboardInterrupt) ->
  run process kind dois confirm = Some results ->
  OrderedDict.keys results = first_seen dois /\
  (forall d, In d dois <-> exists citations, OrderedDict.get results d = Some citations) /\
  (kind = FromCsvFile ->
   results = main_loop process (first_seen dois) /\
   processed process 1 (first_seen dois) = first_seen dois).
Proof.
  intros Hp. unfold run. destruct dois as [|d0 dois']; [discriminate|].
  generalize (d0 :: dois'). clear d0 dois'. intros dois.
  destruct (String.eqb (lower (strip confirm)) "y"); [|discriminate].
  intros [= <-].
  assert (Hk : OrderedDict.keys
                 (main_loop process
                    match kind with
                    | FromDepositorReport => dois
                    | FromCsvFile => OrderedDict.keys (fromkeys dois)
                    end) = first_seen dois).
  { rewrite main_loop_first_seen, processed_all by exact Hp.
    destruct kind; [reflexivity|]. rewrite fromkeys_first_seen.
    apply first_seen_distinct, first_seen_nodup. }
  split; [exact Hk|]. split.
  - intros d. rewrite <- get_in_keys, Hk. symmetry. apply first_seen_in.
  - intros ->. rewrite fromkeys_first_seen. split; [reflexivity|]. now apply processed_all.
Qed.

Lemma main_results_have_each_identifier_once_witness :
  exists results,
    run process_example FromCsvFile ["10.1000/a"; "10.1000/b"; "10.1000/a"] " Y" =
      Some results /\
    OrderedDict.keys results = ["10.1000/a"; "10.1000/b"].
Proof.
  eexists. split; [reflexivity|].
  apply (main_results_have_each_identifier_once process_example FromCsvFile
           ["10.1000/a"; "10.1000/b"; "10.1000/a"] " Y");
    [intros i d; destruct i as [|[|[|i]]]; discriminate | reflexivity].
Defined.
